(** * The group chat manager of autogen-agentchat

    A shallow embedding of [BaseGroupChatManager]
    (python/packages/autogen-agentchat/src/autogen_agentchat/teams/_group_chat/
    _base_group_chat_manager.py) and theorems about its handlers.

    The manager is a Python object whose handlers run one at a time (it is a
    [SequentialRoutedAgent]); every handler is embedded as a function in a
    state-and-exception monad over the fields of the object.  The pluggable
    parts (the termination condition, and the abstract methods
    [validate_group_state] and [select_speaker] of the subclasses) are type
    classes.  Publishing on the runtime and putting on the output queue never
    fail in this model; cancellation tokens are not represented.

    The file also embeds [to_main] of python/docs/src/conf.py, the function
    that rewrites the "edit this page" links of the documentation. *)

From stdpp Require Import gmap strings list pretty.
From Stdlib Require Import ZArith Lia Ascii.

Set Default Proof Using "Type".

(** ** Python values *)

(** Exceptions, by class.  [OtherError] stands for whatever a pluggable
    collaborator raises. *)
Inductive Exception :=
| ValueError (msg : string)
| RuntimeError (msg : string)
| KeyError (key : string)
| OtherError (cls msg : string).

Inductive Result (A : Type) :=
| Return (a : A)
| Raise (e : Exception).
Arguments Return {A} a.
Arguments Raise {A} e.

(** [StopMessage(content=..., source=...)] *)
Record StopMessage := { content : string; source : string }.

(** [BaseAgentEvent | BaseChatMessage], the entries of the message thread. *)
Inductive Message :=
| BaseChatMessage (src text : string)
| BaseAgentEvent (src text : string)
| SelectSpeakerEvent (names : list string) (src : string).

(** [SerializableException] belongs to [_events.py]; the manager only builds
    it with [from_exception] and passes it on, so it is kept uninterpreted. *)
Inductive SerializableException :=
| from_exception (e : Exception).

(** [GroupChatTermination(message=..., error=...)] *)
Record GroupChatTermination :=
  { message : StopMessage; error : option SerializableException }.

(** [Response] and [TaskResult], as far as the manager reads them. *)
Record Response :=
  { chat_message : Message; inner_messages : option (list Message) }.
Record TaskResult := { messages : list Message }.

(** The argument type of [handle_agent_response]. *)
Inductive AgentOrTeamResponse :=
| GroupChatAgentResponse (response : Response) (name : string)
| GroupChatTeamResponse (result : TaskResult) (name : string).

Definition name (m : AgentOrTeamResponse) : string :=
  match m with
  | GroupChatAgentResponse _ n => n
  | GroupChatTeamResponse _ n => n
  end.

(** The events of [_events.py] that the manager receives or publishes. *)
Inductive GroupChatEvent :=
| GroupChatStart (msgs : option (list Message)) (output_task_messages : bool)
| GroupChatResponse (r : AgentOrTeamResponse)
| GroupChatMessage (m : Message)
| GroupChatError (err : SerializableException)
| GroupChatReset
| GroupChatPause
| GroupChatResume
| GroupChatRequestPublish
| GroupChatTerminationEvent (t : GroupChatTermination).

(** What [select_speaker] returns: [List[str] | str]. *)
Inductive Speakers :=
| OneSpeaker (s : string)
| ManySpeakers (l : list string).

(** The items of the output message queue. *)
Inductive QueueItem :=
| QMessage (m : Message)
| QTermination (t : GroupChatTermination).

(** Everything a handler does that is visible outside the object, in the
    order in which it happens. *)
Inductive Effect :=
| Published (topic : string) (ev : GroupChatEvent)
| QueuePut (item : QueueItem)
| ValidateCalled (msgs : option (list Message))
| SelectCalled (thread : list Message)
| ConditionCalled (delta : list Message)
| ConditionReset.

(** ** The pluggable collaborators *)

(** [TerminationCondition]: [terminated], [__call__] and [reset], over the
    state [C] of the condition object. *)
Class TerminationCondition (C : Type) := {
  tc_terminated : C → bool;
  tc_call : list Message → C → Result (option StopMessage) * C;
  tc_reset : C → C;
}.

(** The abstract methods of [BaseGroupChatManager], over the state [Sub] that
    a subclass adds to the object. *)
Class GroupChatManagerImpl (Sub : Type) := {
  validate_group_state : option (list Message) → Sub → Result unit * Sub;
  select_speaker : list Message → Sub → Result Speakers * Sub;
  reset_impl : Sub → Sub;
}.

(** ** The manager object *)

Record Manager (C Sub : Type) := mkManager {
  _name : string;
  _group_topic_type : string;
  _output_topic_type : string;
  _participant_names : list string;
  _participant_name_to_topic_type : gmap string string;
  _participant_descriptions : list string;
  _message_thread : list Message;
  _output_message_queue : list QueueItem;
  _termination_condition : option C;
  _max_turns : option Z;
  _current_turn : Z;
  _emit_team_events : bool;
  _active_speakers : list string;
  (** the fields of the subclass *)
  impl : Sub;
  (** the effects so far, oldest first *)
  effects : list Effect;
}.
Arguments mkManager {C Sub}.
Arguments _name {C Sub} m.
Arguments _group_topic_type {C Sub} m.
Arguments _output_topic_type {C Sub} m.
Arguments _participant_names {C Sub} m.
Arguments _participant_name_to_topic_type {C Sub} m.
Arguments _participant_descriptions {C Sub} m.
Arguments _message_thread {C Sub} m.
Arguments _output_message_queue {C Sub} m.
Arguments _termination_condition {C Sub} m.
Arguments _max_turns {C Sub} m.
Arguments _current_turn {C Sub} m.
Arguments _emit_team_events {C Sub} m.
Arguments _active_speakers {C Sub} m.
Arguments impl {C Sub} m.
Arguments effects {C Sub} m.

Section Fields.
Context {C Sub : Type}.
Implicit Type s : Manager C Sub.

(** Assignments to the fields that change after construction. *)
Definition with_mutable s thread queue cond turn active sub eff : Manager C Sub :=
  mkManager (_name s) (_group_topic_type s) (_output_topic_type s)
    (_participant_names s) (_participant_name_to_topic_type s)
    (_participant_descriptions s) thread queue cond (_max_turns s) turn
    (_emit_team_events s) active sub eff.

Definition set_message_thread (v : list Message) s :=
  with_mutable s v (_output_message_queue s) (_termination_condition s)
    (_current_turn s) (_active_speakers s) (impl s) (effects s).
Definition set_output_message_queue (v : list QueueItem) s :=
  with_mutable s (_message_thread s) v (_termination_condition s)
    (_current_turn s) (_active_speakers s) (impl s) (effects s).
Definition set_termination_condition (v : option C) s :=
  with_mutable s (_message_thread s) (_output_message_queue s) v
    (_current_turn s) (_active_speakers s) (impl s) (effects s).
Definition set_current_turn (v : Z) s :=
  with_mutable s (_message_thread s) (_output_message_queue s)
    (_termination_condition s) v (_active_speakers s) (impl s) (effects s).
Definition set_active_speakers (v : list string) s :=
  with_mutable s (_message_thread s) (_output_message_queue s)
    (_termination_condition s) (_current_turn s) v (impl s) (effects s).
Definition set_impl (v : Sub) s :=
  with_mutable s (_message_thread s) (_output_message_queue s)
    (_termination_condition s) (_current_turn s) (_active_speakers s) v
    (effects s).
Definition set_effects (v : list Effect) s :=
  with_mutable s (_message_thread s) (_output_message_queue s)
    (_termination_condition s) (_current_turn s) (_active_speakers s)
    (impl s) v.
Definition log (e : Effect) s := set_effects (effects s ++ [e]) s.
End Fields.

(** ** The monad of handlers: state of the object, and exceptions *)

Definition M (C Sub A : Type) : Type :=
  Manager C Sub → Result A * Manager C Sub.

Section Monad.
Context {C Sub : Type}.
Local Abbreviation M := (M C Sub).

Definition ret {A} (a : A) : M A := λ s, (Return a, s).
Definition raise {A} (e : Exception) : M A := λ s, (Raise e, s).
Definition bind {A B} (c : M A) (k : A → M B) : M B :=
  λ s, match c s with
       | (Return a, s') => k a s'
       | (Raise e, s') => (Raise e, s')
       end.
Definition gets {A} (f : Manager C Sub → A) : M A := λ s, (Return (f s), s).
Definition modify (f : Manager C Sub → Manager C Sub) : M unit :=
  λ s, (Return tt, f s).

(** [try: body except Exception as e: handler e] *)
Definition try_except {A} (body : M A) (handler : Exception → M A) : M A :=
  λ s, match body s with
       | (Return a, s') => (Return a, s')
       | (Raise e, s') => handler e s'
       end.

(** [for x in l: body x] *)
Fixpoint for_each {A} (l : list A) (body : A → M unit) : M unit :=
  match l with
  | [] => ret tt
  | x :: l' => bind (body x) (λ _, for_each l' body)
  end.

Definition when (b : bool) (c : M unit) : M unit :=
  if b then c else ret tt.
End Monad.

Notation "'let!' x ':=' c 'in' k" := (bind c (λ x, k))
  (at level 10, x name, c at level 100, k at level 200).
Notation "c ;; k" := (bind c (λ _, k))
  (at level 100, k at level 200, right associativity).

(** ** Helpers for the Python built-ins the manager uses *)

(** [zip(l, k, strict=True)], consumed completely. *)
Fixpoint zip_strict {A B} (l : list A) (k : list B) : Result (list (A * B)) :=
  match l, k with
  | [], [] => Return []
  | x :: l', y :: k' =>
      match zip_strict l' k' with
      | Return r => Return ((x, y) :: r)
      | Raise e => Raise e
      end
  | [], _ :: _ => Raise (ValueError "zip() argument 2 is longer than argument 1")
  | _ :: _, [] => Raise (ValueError "zip() argument 2 is shorter than argument 1")
  end.

(** [{k: v for k, v in pairs}]: a later pair overwrites an earlier one. *)
Definition dict_of_pairs (pairs : list (string * string)) : gmap string string :=
  foldl (λ d kv, <[kv.1 := kv.2]> d) ∅ pairs.

(** [l.remove(x)]: drops the first occurrence, [None] when there is none
    (Python raises [ValueError]). *)
Fixpoint list_remove (x : string) (l : list string) : option (list string) :=
  match l with
  | [] => None
  | y :: l' => if decide (x = y) then Some l' else cons y <$> list_remove x l'
  end.

(** The number of termination events in a queue. *)
Definition is_termination (item : QueueItem) : bool :=
  match item with QTermination _ => true | QMessage _ => false end.
Fixpoint count_where {A} (p : A → bool) (l : list A) : nat :=
  match l with
  | [] => 0
  | x :: l' => (if p x then 1 else 0) + count_where p l'
  end.
Definition terminations (q : list QueueItem) : nat :=
  count_where is_termination q.

(** ** Construction *)

Section Init.
Context {C Sub : Type}.

(** [BaseGroupChatManager.__init__]; [sub] is what the subclass adds.  The
    message factory is stored and never used by this class, it is left out. *)
Definition __init__
    (name group_topic_type output_topic_type : string)
    (participant_topic_types participant_names participant_descriptions : list string)
    (output_message_queue : list QueueItem)
    (termination_condition : option C)
    (max_turns : option Z)
    (emit_team_events : bool)
    (sub : Sub) : Result (Manager C Sub) :=
  if (match max_turns with Some n => bool_decide (n ≤ 0)%Z | None => false end) then
    Raise (ValueError "The maximum number of turns must be greater than 0.")
  else if bool_decide (length participant_topic_types ≠ length participant_descriptions) then
    Raise (ValueError "The number of participant topic types, agent types, and descriptions must be the same.")
  else if bool_decide (size (list_to_set participant_topic_types : gset string)
                       ≠ length participant_topic_types) then
    Raise (ValueError "The participant topic types must be unique.")
  else if bool_decide (group_topic_type ∈ participant_topic_types) then
    Raise (ValueError "The group topic type must not be in the participant topic types.")
  else
    match zip_strict participant_names participant_topic_types with
    | Raise e => Raise e
    | Return pairs =>
        Return (mkManager name group_topic_type output_topic_type
                  participant_names (dict_of_pairs pairs)
                  participant_descriptions [] output_message_queue
                  termination_condition max_turns 0%Z emit_team_events []
                  sub [])
    end.
End Init.

(** ** The handlers *)

Section Handlers.
Context {C Sub : Type} `{!TerminationCondition C} `{!GroupChatManagerImpl Sub}.
Local Abbreviation M := (M C Sub).

(** [await self.publish_message(ev, topic_id=DefaultTopicId(type=topic))] *)
Definition publish_message (ev : GroupChatEvent) (topic : string) : M unit :=
  modify (log (Published topic ev)).

(** [await self._output_message_queue.put(item)] *)
Definition queue_put (item : QueueItem) : M unit :=
  modify (λ s, log (QueuePut item)
                 (set_output_message_queue (_output_message_queue s ++ [item]) s)).

(** [await self.validate_group_state(msgs)] *)
Definition call_validate_group_state (msgs : option (list Message)) : M unit :=
  λ s, let (r, sub) := validate_group_state msgs (impl s) in
       (r, set_impl sub (log (ValidateCalled msgs) s)).

(** [await self.select_speaker(self._message_thread)] *)
Definition call_select_speaker : M Speakers :=
  λ s, let (r, sub) := select_speaker (_message_thread s) (impl s) in
       (r, set_impl sub (log (SelectCalled (_message_thread s)) s)).

(** [await self._termination_condition(delta)] *)
Definition call_termination_condition (delta : list Message) : M (option StopMessage) :=
  λ s, match _termination_condition s with
       | Some c =>
           let (r, c') := tc_call delta c in
           (r, set_termination_condition (Some c') (log (ConditionCalled delta) s))
       | None => (Raise (OtherError "TypeError" "'NoneType' object is not callable"), s)
       end.

(** [await self._termination_condition.reset()] *)
Definition reset_termination_condition : M unit :=
  λ s, match _termination_condition s with
       | Some c =>
           (Return tt, set_termination_condition (Some (tc_reset c)) (log ConditionReset s))
       | None =>
           (Raise (OtherError "AttributeError" "'NoneType' object has no attribute 'reset'"), s)
       end.

(** [update_message_thread] *)
Definition update_message_thread (msgs : list Message) : M unit :=
  modify (λ s, set_message_thread (_message_thread s ++ msgs) s).

(** [_signal_termination] *)
Definition _signal_termination (msg : StopMessage) : M unit :=
  let termination_event := {| message := msg; error := None |} in
  let! out := gets _output_topic_type in
  publish_message (GroupChatTerminationEvent termination_event) out ;;
  queue_put (QTermination termination_event).

(** [_signal_termination_with_error] *)
Definition _signal_termination_with_error (err : SerializableException) : M unit :=
  let! self_name := gets _name in
  let termination_event :=
    {| message := {| content := "An error occurred in the group chat.";
                     source := self_name |};
       error := Some err |} in
  let! out := gets _output_topic_type in
  publish_message (GroupChatTerminationEvent termination_event) out ;;
  queue_put (QTermination termination_event).

(** The stop message of the turn limit:
    [f"Maximum number of turns {self._max_turns} reached."] *)
Definition max_turns_stop_message (self_name : string) (n : Z) : StopMessage :=
  {| content := "Maximum number of turns " +:+ pretty n +:+ " reached.";
     source := self_name |}.

(** [_apply_termination_condition].  The two [return True] of the source are
    the two places that answer [true]; [stopped] carries the first one past
    the end of the first [if]. *)
Definition _apply_termination_condition
    (delta : list Message) (increment_turn_count : bool) : M bool :=
  let! cond := gets _termination_condition in
  let! stopped :=
    (if bool_decide (is_Some cond) then
       let! stop_message := call_termination_condition delta in
       match stop_message with
       | Some stop =>
           reset_termination_condition ;;
           modify (set_current_turn 0%Z) ;;
           _signal_termination stop ;;
           ret true
       | None => ret false
       end
     else ret false) in
  if (stopped : bool) then ret true
  else
    when increment_turn_count
      (modify (λ s, set_current_turn (_current_turn s + 1)%Z s)) ;;
    let! max_turns := gets _max_turns in
    match max_turns with
    | Some n =>
        let! turn := gets _current_turn in
        if bool_decide (turn >= n)%Z then
          let! self_name := gets _name in
          let stop_message := max_turns_stop_message self_name n in
          let! cond := gets _termination_condition in
          when (bool_decide (is_Some cond)) reset_termination_condition ;;
          modify (set_current_turn 0%Z) ;;
          _signal_termination stop_message ;;
          ret true
        else ret false
    | None => ret false
    end.

(** [_log_speaker_selection] *)
Definition _log_speaker_selection (speaker_names : list string) : M unit :=
  let! self_name := gets _name in
  let select_msg := SelectSpeakerEvent speaker_names self_name in
  let! emit := gets _emit_team_events in
  when emit
    (let! out := gets _output_topic_type in
     publish_message (GroupChatMessage select_msg) out ;;
     queue_put (QMessage select_msg)).

(** The message of the [RuntimeError] for a name outside the registry. *)
Definition speaker_not_found (speaker_name : string) : Exception :=
  RuntimeError ("Speaker " +:+ speaker_name +:+ " not found in participant names.").

(** [if isinstance(speaker_names, str): speaker_names = [speaker_names]] *)
Definition speaker_list (selected : Speakers) : list string :=
  match selected with
  | OneSpeaker s => [s]
  | ManySpeakers l => l
  end.

(** [_transition_to_next_speakers] *)
Definition _transition_to_next_speakers : M unit :=
  let! selected := call_select_speaker in
  let speaker_names := speaker_list selected in
  let! registry := gets _participant_name_to_topic_type in
  for_each speaker_names (λ speaker_name,
    if bool_decide (registry !! speaker_name = None)
    then raise (speaker_not_found speaker_name)
    else ret tt) ;;
  _log_speaker_selection speaker_names ;;
  for_each speaker_names (λ speaker_name,
    let! registry := gets _participant_name_to_topic_type in
    match registry !! speaker_name with
    | Some speaker_topic_type =>
        publish_message GroupChatRequestPublish speaker_topic_type ;;
        modify (λ s, set_active_speakers (_active_speakers s ++ [speaker_name]) s)
    | None => raise (KeyError speaker_name)
    end).

(** [handle_start].  The relayed [GroupChatStart] is built from the messages
    alone; its other field takes the default of [_events.py], [True]. *)
Definition handle_start
    (msgs : option (list Message)) (output_task_messages : bool) : M unit :=
  let! cond := gets _termination_condition in
  if (match cond with Some c => tc_terminated c | None => false end) then
    let! self_name := gets _name in
    let early_stop_message :=
      {| content := "The group chat has already terminated.";
         source := self_name |} in
    _signal_termination early_stop_message
  else
    call_validate_group_state msgs ;;
    let! stopped :=
      (match msgs with
       | Some ms =>
           let! out := gets _output_topic_type in
           publish_message (GroupChatStart (Some ms) true) out ;;
           when output_task_messages
             (for_each ms (λ msg, queue_put (QMessage msg))) ;;
           let! group := gets _group_topic_type in
           publish_message (GroupChatStart (Some ms) true) group ;;
           update_message_thread ms ;;
           _apply_termination_condition ms false
       | None => ret false
       end) in
    if (stopped : bool) then ret tt
    else _transition_to_next_speakers.

(** The delta of a response: the inner messages and the chat message of an
    agent, or all the messages of a team. *)
Definition response_delta (m : AgentOrTeamResponse) : list Message :=
  match m with
  | GroupChatAgentResponse response _ =>
      default [] (inner_messages response) ++ [chat_message response]
  | GroupChatTeamResponse result _ => messages result
  end.

(** [handle_agent_response] *)
Definition handle_agent_response (m : AgentOrTeamResponse) : M unit :=
  try_except
    (let delta := response_delta m in
     update_message_thread delta ;;
     let! active := gets _active_speakers in
     match list_remove (name m) active with
     | None => raise (ValueError "list.remove(x): x not in list")
     | Some rest =>
         modify (set_active_speakers rest) ;;
         if bool_decide (0 < length rest) then ret tt
         else
           let! stopped := _apply_termination_condition delta true in
           if (stopped : bool) then ret tt
           else _transition_to_next_speakers
     end)
    (λ e,
      _signal_termination_with_error (from_exception e) ;;
      raise e).

(** [handle_group_chat_message] *)
Definition handle_group_chat_message (m : Message) : M unit :=
  queue_put (QMessage m).

(** [handle_group_chat_error] *)
Definition handle_group_chat_error (err : SerializableException) : M unit :=
  _signal_termination_with_error err.

(** Modelled from the spec: the abstract method [reset] of the subclasses,
    which [handle_reset] awaits.  It invokes the pluggable reset hook, clears
    the thread, zeroes the turn counter and clears the active speakers. *)
Definition reset : M unit :=
  modify (λ s, set_impl (reset_impl (impl s))
                 (set_active_speakers []
                    (set_current_turn 0%Z (set_message_thread [] s)))).

(** [handle_reset] *)
Definition handle_reset : M unit := reset.

(** [handle_pause] and [handle_resume] *)
Definition handle_pause : M unit := ret tt.
Definition handle_resume : M unit := ret tt.

(** [on_unhandled_message] *)
Definition on_unhandled_message (type_name : string) : M unit :=
  raise (ValueError ("Unhandled message in group chat manager: <class '"
                     +:+ type_name +:+ "'>")).

(** The routing of [RoutedAgent]: each event goes to the handler whose
    annotation has its type. *)
Definition on_message (ev : GroupChatEvent) : M unit :=
  match ev with
  | GroupChatStart msgs output_task_messages => handle_start msgs output_task_messages
  | GroupChatResponse r => handle_agent_response r
  | GroupChatMessage m => handle_group_chat_message m
  | GroupChatError err => handle_group_chat_error err
  | GroupChatReset => handle_reset
  | GroupChatPause => handle_pause
  | GroupChatResume => handle_resume
  | GroupChatRequestPublish =>
      on_unhandled_message
        "autogen_agentchat.teams._group_chat._events.GroupChatRequestPublish"
  | GroupChatTerminationEvent _ =>
      on_unhandled_message
        "autogen_agentchat.teams._group_chat._events.GroupChatTermination"
  end.

(** The object after a sequence of events, handled one after the other; an
    exception of a handler goes to the runtime, the object stays as the
    handler left it. *)
Definition run (evs : list GroupChatEvent) (s : Manager C Sub) : Manager C Sub :=
  foldl (λ s ev, (on_message ev s).2) s evs.

End Handlers.

(** ** The "edit this page" link of the documentation

    [to_main] of python/docs/src/conf.py, the function that [setup_to_main]
    hands to the page templates. *)

(** [s.split(sep)], for a separator of one character: every occurrence of
    the separator ends a segment, segments may be empty, and the empty
    string gives one empty segment. *)
Fixpoint str_split (sep : Ascii.ascii) (s : string) : list string :=
  match s with
  | EmptyString => [EmptyString]
  | String c s' =>
      if decide (c = sep) then EmptyString :: str_split sep s'
      else
        match str_split sep s' with
        | seg :: segs => String c seg :: segs
        | [] => [String c EmptyString]
        end
  end.

(** [sep.join(l)] *)
Fixpoint str_join (sep : string) (l : list string) : string :=
  match l with
  | [] => ""
  | x :: l' =>
      match l' with
      | [] => x
      | _ :: _ => x +:+ sep +:+ str_join sep l'
      end
  end.

(** [l.index(x)]: the position of the first occurrence, [None] when there is
    none (Python raises [ValueError]). *)
Fixpoint list_index (x : string) (l : list string) : option nat :=
  match l with
  | [] => None
  | y :: l' => if decide (y = x) then Some 0 else S <$> list_index x l'
  end.

(** [to_main] *)
Definition to_main (link : string) : Result string :=
  let links := str_split "/"%char link in
  match list_index "edit" links with
  | None => Raise (ValueError "'edit' is not in list")
  | Some idx =>
      Return (str_join "/" (take (idx + 1) links)
              +:+ "/main/"
              +:+ str_join "/" (drop (idx + 2) links))
  end.

(** Does the character occur in the string? *)
Fixpoint occurs (c : Ascii.ascii) (s : string) : bool :=
  match s with
  | EmptyString => false
  | String c' s' => bool_decide (c' = c) || occurs c s'
  end.

(** The segments of a path, as the statements about [to_main] take them: at
    least one, none with a slash inside. *)
Definition path_segments (segs : list string) : Prop :=
  segs ≠ [] ∧ Forall (λ seg, occurs "/"%char seg = false) segs.

(** What [to_main] leaves behind "edit": the branch is dropped; the rest of
    the path follows, or the empty segment of a trailing slash when there is
    no rest. *)
Definition after_branch (tail : list string) : list string :=
  match drop 1 tail with
  | [] => [""]
  | rest => rest
  end.

(** ** Concrete collaborators, for the scenarios *)

Module Scenario.

(** A condition in the manner of [TextMentionTermination]: it stops at the
    first delta with a chat message whose text contains the word, and refuses
    to be called again before a reset.  Its state is its [terminated] flag. *)
Definition mentions (word : string) (m : Message) : bool :=
  match m with
  | BaseChatMessage _ text => bool_decide (is_Some (String.index 0 word text))
  | _ => false
  end.

#[export] Instance mention_done : TerminationCondition bool := {
  tc_terminated c := c;
  tc_call delta c :=
    if c then
      (Raise (OtherError "TerminatedException"
                "Termination condition has already been reached"), c)
    else if existsb (mentions "DONE") delta then
      (Return (Some {| content := "Text 'DONE' mentioned";
                       source := "TextMentionTermination" |}), true)
    else (Return None, false);
  tc_reset _ := false;
}.

(** A subclass whose selector gives a fixed answer and whose validator gives
    a fixed verdict. *)
Record Fixed := { answer : Result Speakers; verdict : Result unit }.

#[export] Instance fixed_impl : GroupChatManagerImpl Fixed := {
  validate_group_state _ sub := (verdict sub, sub);
  select_speaker _ sub := (answer sub, sub);
  reset_impl sub := sub;
}.

Definition always (who : Speakers) : Fixed :=
  {| answer := Return who; verdict := Return tt |}.

(** Participants X and Y on topics tx and ty. *)
Definition team (cond : option bool) (max_turns : option Z) (sub : Fixed)
  : Result (Manager bool Fixed) :=
  __init__ "manager" "group" "output" ["tx"; "ty"] ["X"; "Y"]
    ["first"; "second"] [] cond max_turns false sub.

Definition from_team (r : Result (Manager bool Fixed)) : Manager bool Fixed :=
  match r with
  | Return s => s
  | Raise _ => mkManager "" "" "" [] ∅ [] [] [] None None 0%Z false []
                 (always (ManySpeakers [])) []
  end.

Definition says (who text : string) : AgentOrTeamResponse :=
  GroupChatAgentResponse
    {| chat_message := BaseChatMessage who text; inner_messages := None |} who.

Definition hi : Message := BaseChatMessage "user" "hi".

(** A team whose condition comes terminated. *)
Definition terminated_team : Manager bool Fixed :=
  from_team (team (Some true) None (always (OneSpeaker "X"))).

(** X speaks alone; one turn at most; the condition listens for DONE. *)
Definition one_turn_team : Manager bool Fixed :=
  from_team (team (Some false) (Some 1%Z) (always (OneSpeaker "X"))).

(** The validator rejects every task. *)
Definition rejecting_team : Manager bool Fixed :=
  from_team (team None None
               {| answer := Return (OneSpeaker "X");
                  verdict := Raise (ValueError "The task is empty.") |}).

(** The selector names Z, who is not a participant. *)
Definition unknown_team (cond : option bool) : Manager bool Fixed :=
  from_team (team cond None (always (OneSpeaker "Z"))).

(** X and Y speak in every round; one turn at most. *)
Definition pair_team : Manager bool Fixed :=
  from_team (team None (Some 1%Z) (always (ManySpeakers ["X"; "Y"]))).

(** The same teams once started: the selected speakers are awaited. *)
Definition started (s : Manager bool Fixed) : Manager bool Fixed :=
  run [GroupChatStart None true] s.

End Scenario.

(** ** The vocabulary of the statements

    None of the following is code of the manager: these are the states that
    the handlers leave behind, written as functions, and what the statements
    observe of a state. *)

(** The configurations that the specification calls invalid. *)
Definition invalid_configuration
    (group_topic_type : string)
    (participant_topic_types participant_names participant_descriptions : list string)
    (max_turns : option Z) : Prop :=
  ¬ NoDup participant_topic_types
  ∨ ¬ (length participant_topic_types = length participant_names
       ∧ length participant_names = length participant_descriptions)
  ∨ group_topic_type ∈ participant_topic_types
  ∨ (∃ n, max_turns = Some n ∧ (n ≤ 0)%Z).

Section Outcomes.
Context {C Sub : Type} `{!TerminationCondition C} `{!GroupChatManagerImpl Sub}.
Implicit Type s : Manager C Sub.

(** The object after a termination event has been published and queued. *)
Definition signalled (t : GroupChatTermination) s : Manager C Sub :=
  log (QueuePut (QTermination t))
    (set_output_message_queue (_output_message_queue s ++ [QTermination t])
       (log (Published (_output_topic_type s) (GroupChatTerminationEvent t)) s)).

(** The event of [_signal_termination_with_error]. *)
Definition error_termination s (err : SerializableException) : GroupChatTermination :=
  {| message := {| content := "An error occurred in the group chat.";
                   source := _name s |};
     error := Some err |}.

(** The object after the condition has been called on [delta], and what the
    call answered; without a condition nothing happens and nothing stops. *)
Definition condition_called (delta : list Message) s : Manager C Sub :=
  match _termination_condition s with
  | Some c =>
      set_termination_condition (Some (tc_call delta c).2)
        (log (ConditionCalled delta) s)
  | None => s
  end.
Definition condition_answer (delta : list Message) s : Result (option StopMessage) :=
  match _termination_condition s with
  | Some c => (tc_call delta c).1
  | None => Return None
  end.

(** The object after the condition, if there is one, has been reset. *)
Definition condition_reset s : Manager C Sub :=
  match _termination_condition s with
  | Some c => set_termination_condition (Some (tc_reset c)) (log ConditionReset s)
  | None => s
  end.

(** The object after the turn has been counted, if it is to be counted. *)
Definition turn_counted (increment_turn_count : bool) s : Manager C Sub :=
  if increment_turn_count then set_current_turn (_current_turn s + 1)%Z s else s.

(** The object after a stop: condition reset, counter zeroed, event out. *)
Definition stopped_with (stop : StopMessage) s : Manager C Sub :=
  signalled {| message := stop; error := None |}
    (set_current_turn 0%Z (condition_reset s)).

(** The first selected name that the registry does not know. *)
Fixpoint first_unknown (registry : gmap string string) (speaker_names : list string)
  : option string :=
  match speaker_names with
  | [] => None
  | n :: rest =>
      if bool_decide (registry !! n = None) then Some n
      else first_unknown registry rest
  end.

(** The object after the selector has been called. *)
Definition selected s : Manager C Sub :=
  set_impl (select_speaker (_message_thread s) (impl s)).2
    (log (SelectCalled (_message_thread s)) s).

(** The object after the selection has been logged, when team events are
    emitted. *)
Definition selection_logged (speaker_names : list string) s : Manager C Sub :=
  let select_msg := SelectSpeakerEvent speaker_names (_name s) in
  if _emit_team_events s then
    log (QueuePut (QMessage select_msg))
      (set_output_message_queue (_output_message_queue s ++ [QMessage select_msg])
         (log (Published (_output_topic_type s) (GroupChatMessage select_msg)) s))
  else s.

(** The object after one speaker, then all of them, have been asked to
    publish. *)
Definition requested_one s (speaker_name : string) : Manager C Sub :=
  match _participant_name_to_topic_type s !! speaker_name with
  | Some topic =>
      set_active_speakers (_active_speakers s ++ [speaker_name])
        (log (Published topic GroupChatRequestPublish) s)
  | None => s
  end.
Definition requested (speaker_names : list string) s : Manager C Sub :=
  foldl requested_one s speaker_names.

(** The object after a delta has been appended to the thread. *)
Definition delta_appended (delta : list Message) s : Manager C Sub :=
  set_message_thread (_message_thread s ++ delta) s.

(** What the [except] clause of [handle_agent_response] makes of the outcome
    of its [try] block. *)
Definition except_signal (outcome : Result unit * Manager C Sub)
  : Result unit * Manager C Sub :=
  match outcome with
  | (Raise e, s') =>
      (Raise e, signalled (error_termination s' (from_exception e)) s')
  | (Return u, s') => (Return u, s')
  end.

(** The outcome of a termination check followed, when it does not stop the
    chat, by a speaker transition. *)
Definition check_then_transition (delta : list Message) (inc : bool) s
  : Result unit * Manager C Sub :=
  match _apply_termination_condition delta inc s with
  | (Raise e, s') => (Raise e, s')
  | (Return true, s') => (Return tt, s')
  | (Return false, s') => _transition_to_next_speakers s'
  end.

(** The object after the validator has been called. *)
Definition validated (msgs : option (list Message)) s : Manager C Sub :=
  set_impl (validate_group_state msgs (impl s)).2 (log (ValidateCalled msgs) s).

(** The object after messages have been put on the output queue. *)
Definition put_one s (msg : Message) : Manager C Sub :=
  log (QueuePut (QMessage msg))
    (set_output_message_queue (_output_message_queue s ++ [QMessage msg]) s).
Definition messages_put (ms : list Message) s : Manager C Sub :=
  foldl put_one s ms.

(** The object after the start messages have been logged, put on the queue
    if asked for, relayed to the group and appended to the thread. *)
Definition start_relayed (ms : list Message) (output_task_messages : bool) s
  : Manager C Sub :=
  delta_appended ms
    (log (Published (_group_topic_type s) (GroupChatStart (Some ms) true))
       (messages_put (if output_task_messages then ms else [])
          (log (Published (_output_topic_type s) (GroupChatStart (Some ms) true)) s))).

(** The check of [handle_start]: is the conversation already terminated? *)
Definition already_terminated s : bool :=
  match _termination_condition s with
  | Some c => tc_terminated c
  | None => false
  end.

(** The stop message of a start after termination. *)
Definition early_stop_message s : StopMessage :=
  {| content := "The group chat has already terminated."; source := _name s |}.

(** *** What is observed of an object *)

(** The termination events on the output queue. *)
Definition queued_terminations s : nat :=
  terminations (_output_message_queue s).

(** The calls of the selector, the deltas the condition was called on, the
    resets of the condition and the requests to publish, so far. *)
Definition is_select_call (e : Effect) : bool :=
  match e with SelectCalled _ => true | _ => false end.
Definition is_request (e : Effect) : bool :=
  match e with Published _ GroupChatRequestPublish => true | _ => false end.
Definition is_condition_reset (e : Effect) : bool :=
  match e with ConditionReset => true | _ => false end.
Definition condition_delta (e : Effect) : option (list Message) :=
  match e with ConditionCalled delta => Some delta | _ => None end.

Definition selector_calls s : nat := count_where is_select_call (effects s).
Definition requests s : nat := count_where is_request (effects s).
Definition condition_resets s : nat := count_where is_condition_reset (effects s).
Definition condition_deltas s : list (list Message) :=
  omap condition_delta (effects s).

(** The fields that no handler assigns. *)
Definition same_config s s' : Prop :=
  _name s' = _name s
  ∧ _group_topic_type s' = _group_topic_type s
  ∧ _output_topic_type s' = _output_topic_type s
  ∧ _participant_names s' = _participant_names s
  ∧ _participant_name_to_topic_type s' = _participant_name_to_topic_type s
  ∧ _participant_descriptions s' = _participant_descriptions s
  ∧ _max_turns s' = _max_turns s
  ∧ _emit_team_events s' = _emit_team_events s.

(** The invariant of the active speakers: each of them is a key of the
    registry. *)
Definition active_registered s : Prop :=
  Forall (λ n, is_Some (_participant_name_to_topic_type s !! n))
    (_active_speakers s).

(** The invariant of the turn counter: it is not negative and stays below
    the turn limit. *)
Definition turn_in_range s : Prop :=
  (0 ≤ _current_turn s)%Z
  ∧ ∀ n, _max_turns s = Some n → (_current_turn s < n)%Z.

End Outcomes.

(** * Properties *)

(** ** Construction *)

Lemma size_list_to_set_le (l : list string) :
  size (list_to_set l : gset string) ≤ length l.
Proof.
  induction l as [|x l IH].
  - rewrite list_to_set_nil, size_empty. done.
  - rewrite list_to_set_cons, length_cons, size_union_alt.
    rewrite size_singleton.
    assert (size (list_to_set l ∖ {[x]} : gset string) ≤ size (list_to_set l : gset string)).
    { apply subseteq_size, subseteq_difference_l. done. }
    lia.
Qed.

Lemma size_list_to_set_NoDup (l : list string) :
  size (list_to_set l : gset string) = length l ↔ NoDup l.
Proof.
  split; [|apply size_list_to_set].
  induction l as [|x l IH]; [constructor|].
  rewrite list_to_set_cons, length_cons. intros Hsize.
  pose proof (size_list_to_set_le l) as Hle.
  destruct (decide (x ∈ l)) as [Hin|Hnotin].
  - assert (({[x]} ∪ list_to_set l : gset string) = list_to_set l) as Heq.
    { apply subseteq_union_1_L, singleton_subseteq_l.
      by rewrite elem_of_list_to_set. }
    rewrite Heq in Hsize. lia.
  - constructor; [done|]. apply IH.
    rewrite size_union, size_singleton in Hsize; [lia|].
    apply disjoint_singleton_l. by rewrite elem_of_list_to_set.
Qed.

Lemma zip_strict_Return {A B} (l : list A) (k : list B) :
  (∃ r, zip_strict l k = Return r) ↔ length l = length k.
Proof.
  revert k. induction l as [|x l IH]; intros [|y k]; simpl.
  - split; eauto.
  - split; [intros [? ?]; discriminate | discriminate].
  - split; [intros [? ?]; discriminate | discriminate].
  - rewrite Nat.succ_inj_wd, <- IH.
    destruct (zip_strict l k); split; intros [? ?]; eauto; discriminate.
Qed.

(** C4.  Construction raises exactly for the invalid configurations
    (duplicate participant topics, lists of different lengths, the group
    topic among the participant topics, a turn limit that is not positive),
    and returns a manager exactly for the others. *)
Theorem init_raises_iff_invalid {C Sub : Type}
    (self_name group_topic_type output_topic_type : string)
    (participant_topic_types participant_names participant_descriptions : list string)
    (output_message_queue : list QueueItem) (termination_condition : option C)
    (max_turns : option Z) (emit_team_events : bool) (sub : Sub) :
  let constructed :=
    __init__ self_name group_topic_type output_topic_type
      participant_topic_types participant_names participant_descriptions
      output_message_queue termination_condition max_turns emit_team_events sub in
  let invalid :=
    invalid_configuration group_topic_type participant_topic_types
      participant_names participant_descriptions max_turns in
  ((∃ e, constructed = Raise e) ↔ invalid)
  ∧ ((∃ s, constructed = Return s) ↔ ¬ invalid).
Proof.
  intros constructed invalid.
  assert (invalid ∨ ¬ invalid) as Hdec.
  { unfold invalid, invalid_configuration.
    destruct (decide (NoDup participant_topic_types)) as [Hnodup|?]; [|tauto].
    destruct (decide (length participant_topic_types = length participant_names
                      ∧ length participant_names = length participant_descriptions))
      as [Hlen|?]; [|tauto].
    destruct (decide (group_topic_type ∈ participant_topic_types)) as [?|Hgroup];
      [tauto|].
    destruct max_turns as [limit|].
    - destruct (decide (limit ≤ 0)%Z) as [?|Hpos]; [by eauto 10|].
      right. intros [?|[?|[?|(n' & [= <-] & ?)]]]; tauto.
    - right. intros [?|[?|[?|(n' & [=] & ?)]]]; tauto. }
  assert ((∃ e, constructed = Raise e) ↔ invalid) as Hraise.
  { unfold constructed, __init__, invalid, invalid_configuration.
    destruct max_turns as [limit|].
    - case_bool_decide as Hn.
      { split; [intros _; by eauto 10 | by eauto]. }
      repeat case_bool_decide; try (split; [intros _|by eauto]).
      + right; left. intros [? ?]. congruence.
      + left. by rewrite <- size_list_to_set_NoDup.
      + tauto.
      + destruct (zip_strict participant_names participant_topic_types) eqn:Hzip.
        * split; [intros [? ?]; discriminate|].
          assert (length participant_names = length participant_topic_types)
            by (apply zip_strict_Return; eauto).
          rewrite <- size_list_to_set_NoDup.
          intros [?|[Hlen|[?|(n' & [= <-] & ?)]]]; try tauto.
          exfalso. apply Hlen. split; congruence.
        * split; [intros _|by eauto].
          right; left. intros [Hlen ?].
          assert (∃ r, zip_strict participant_names participant_topic_types = Return r)
            as [? ?] by (apply zip_strict_Return; congruence).
          congruence.
    - repeat case_bool_decide; try (split; [intros _|by eauto]).
      + right; left. intros [? ?]. congruence.
      + left. by rewrite <- size_list_to_set_NoDup.
      + tauto.
      + destruct (zip_strict participant_names participant_topic_types) eqn:Hzip.
        * split; [intros [? ?]; discriminate|].
          assert (length participant_names = length participant_topic_types)
            by (apply zip_strict_Return; eauto).
          rewrite <- size_list_to_set_NoDup.
          intros [?|[Hlen|[?|(n' & [=] & ?)]]]; try tauto.
          exfalso. apply Hlen. split; congruence.
        * split; [intros _|by eauto].
          right; left. intros [Hlen ?].
          assert (∃ r, zip_strict participant_names participant_topic_types = Return r)
            as [? ?] by (apply zip_strict_Return; congruence).
          congruence. }
  split; [done|].
  rewrite <- Hraise. destruct constructed; split.
  - intros _ [? ?]. discriminate.
  - eauto.
  - intros [? ?]. discriminate.
  - intros Hno. exfalso. apply Hno. eauto.
Qed.

(** ** The handlers as equations on states

    Each handler is rewritten once into the state it leaves behind, in the
    terms of the section [Outcomes]; the theorems are read off these
    equations. *)

Section Equations.
Context {C Sub : Type} `{!TerminationCondition C} `{!GroupChatManagerImpl Sub}.
Implicit Type s : Manager C Sub.

Lemma bind_Return {A B} (c : M C Sub A) (k : A → M C Sub B) s a s1 :
  c s = (Return a, s1) → bind c k s = k a s1.
Proof. unfold bind. by intros ->. Qed.

Lemma bind_Raise {A B} (c : M C Sub A) (k : A → M C Sub B) s e s1 :
  c s = (Raise e, s1) → bind c k s = (Raise e, s1).
Proof. unfold bind. by intros ->. Qed.

Lemma signal_termination_eq (stop : StopMessage) s :
  _signal_termination stop s
  = (Return tt, signalled {| message := stop; error := None |} s).
Proof. reflexivity. Qed.

Lemma signal_termination_with_error_eq (err : SerializableException) s :
  _signal_termination_with_error err s
  = (Return tt, signalled (error_termination s err) s).
Proof. reflexivity. Qed.

Lemma apply_termination_condition_eq (delta : list Message) (inc : bool) s :
  _apply_termination_condition delta inc s =
    match condition_answer delta s with
    | Raise e => (Raise e, condition_called delta s)
    | Return (Some stop) =>
        (Return true, stopped_with stop (condition_called delta s))
    | Return None =>
        let s2 := turn_counted inc (condition_called delta s) in
        match _max_turns s with
        | Some n =>
            if bool_decide (_current_turn s2 >= n)%Z
            then (Return true, stopped_with (max_turns_stop_message (_name s) n) s2)
            else (Return false, s2)
        | None => (Return false, s2)
        end
    end.
Proof.
  unfold _apply_termination_condition, condition_answer, condition_called,
    stopped_with, condition_reset, turn_counted.
  unfold bind at 1. unfold gets at 1.
  destruct (_termination_condition s) as [c|] eqn:Hc.
  - rewrite bool_decide_eq_true_2 by eauto.
    unfold call_termination_condition, bind at 1 2. rewrite Hc.
    destruct (tc_call delta c) as [[[stop|]|e] c']; simpl; [done| |done].
    unfold when, bind, gets, modify, ret, reset_termination_condition,
      _signal_termination, publish_message, queue_put.
    destruct inc; cbn; destruct (_max_turns s); cbn; try done;
      case_bool_decide; done.
  - rewrite bool_decide_eq_false_2 by (intros [? ?]; discriminate).
    unfold when, bind, gets, modify, ret, reset_termination_condition,
      _signal_termination, publish_message, queue_put.
    destruct inc; cbn; destruct (_max_turns s); cbn; try done;
      case_bool_decide; cbn; rewrite ?Hc; done.
Qed.

Lemma first_unknown_None registry speaker_names :
  first_unknown registry speaker_names = None
  ↔ Forall (λ n, is_Some (registry !! n)) speaker_names.
Proof.
  induction speaker_names as [|n rest IH]; simpl.
  - split; [constructor|done].
  - case_bool_decide as Hn.
    + split; [done|]. intros [[? Hsome] _]%Forall_cons. congruence.
    + rewrite IH, Forall_cons. split; [|tauto].
      intros ?. split; [|done]. by destruct (registry !! n); eauto.
Qed.



Lemma check_speakers_eq registry speaker_names s :
  for_each speaker_names (λ speaker_name,
    if bool_decide (registry !! speaker_name = None)
    then raise (speaker_not_found speaker_name)
    else ret tt) s
  = match first_unknown registry speaker_names with
    | Some x => (Raise (speaker_not_found x), s)
    | None => (Return tt, s)
    end.
Proof.
  induction speaker_names as [|n rest IH]; simpl; [done|].
  unfold bind. case_bool_decide; [done|]. apply IH.
Qed.

Lemma requested_one_registry s n :
  _participant_name_to_topic_type (requested_one s n)
  = _participant_name_to_topic_type s.
Proof. unfold requested_one. by destruct (_ !! n). Qed.

Lemma request_speakers_eq speaker_names s :
  first_unknown (_participant_name_to_topic_type s) speaker_names = None →
  for_each speaker_names (λ speaker_name,
    let! registry := gets _participant_name_to_topic_type in
    match registry !! speaker_name with
    | Some speaker_topic_type =>
        publish_message GroupChatRequestPublish speaker_topic_type ;;
        modify (λ s, set_active_speakers (_active_speakers s ++ [speaker_name]) s)
    | None => raise (KeyError speaker_name)
    end) s
  = (Return tt, requested speaker_names s).
Proof.
  revert s. induction speaker_names as [|n rest IH]; intros s; simpl; [done|].
  case_bool_decide as Hn; [done|]. intros Hrest.
  unfold bind at 1 2, gets at 1.
  unfold requested_one.
  destruct (_participant_name_to_topic_type s !! n) as [topic|] eqn:Htopic; [|done].
  cbn. by rewrite IH.
Qed.

Lemma transition_to_next_speakers_eq s :
  _transition_to_next_speakers s =
    match (select_speaker (_message_thread s) (impl s)).1 with
    | Raise e => (Raise e, selected s)
    | Return selection =>
        let speaker_names := speaker_list selection in
        match first_unknown (_participant_name_to_topic_type s) speaker_names with
        | Some x => (Raise (speaker_not_found x), selected s)
        | None =>
            (Return tt,
             requested speaker_names (selection_logged speaker_names (selected s)))
        end
    end.
Proof.
  unfold _transition_to_next_speakers, call_select_speaker, selected.
  unfold bind at 1.
  destruct (select_speaker (_message_thread s) (impl s)) as [[selection|e] sub];
    simpl; [|done].
  unfold bind at 1, gets at 1. unfold bind at 1.
  rewrite check_speakers_eq. simpl.
  destruct (first_unknown _ _) eqn:Hfirst; [done|].
  unfold _log_speaker_selection, selection_logged.
  unfold bind at 1. unfold bind at 1, gets at 1. unfold bind at 1, gets at 1.
  simpl. destruct (_emit_team_events s); simpl.
  - by rewrite request_speakers_eq.
  - by rewrite request_speakers_eq.
Qed.

Lemma handle_agent_response_eq (m : AgentOrTeamResponse) s :
  handle_agent_response m s =
    let delta := response_delta m in
    let s1 := delta_appended delta s in
    except_signal
      match list_remove (name m) (_active_speakers s) with
      | None => (Raise (ValueError "list.remove(x): x not in list"), s1)
      | Some rest =>
          let s2 := set_active_speakers rest s1 in
          if bool_decide (0 < length rest) then (Return tt, s2)
          else check_then_transition delta true s2
      end.
Proof.
  unfold handle_agent_response, try_except, except_signal, check_then_transition.
  unfold bind at 1, update_message_thread at 1, modify at 1.
  unfold bind at 1, gets at 1. cbn [_active_speakers delta_appended set_message_thread with_mutable].
  destruct (list_remove (name m) (_active_speakers s)) as [rest|]; [|done].
  unfold bind at 1, modify at 1.
  case_bool_decide; [done|].
  unfold bind at 1.
  destruct (_apply_termination_condition _ _ _) as [[[|]|e] s3]; [done| |done].
  by destruct (_transition_to_next_speakers s3) as [[[]|e] s4].
Qed.

Lemma put_messages_eq (ms : list Message) s :
  for_each ms (λ msg, queue_put (QMessage msg)) s = (Return tt, messages_put ms s).
Proof.
  revert s. induction ms as [|msg ms IH]; intros s; simpl; [done|].
  unfold bind at 1. unfold queue_put at 1, modify at 1. by rewrite IH.
Qed.

Lemma messages_put_fields (ms : list Message) s :
  let s' := messages_put ms s in
  _output_message_queue s' = _output_message_queue s ++ (QMessage <$> ms)
  ∧ effects s' = effects s ++ ((λ msg, QueuePut (QMessage msg)) <$> ms)
  ∧ s' = set_effects (effects s') (set_output_message_queue (_output_message_queue s') s).
Proof.
  revert s. induction ms as [|msg ms IH]; intros s; simpl.
  - rewrite !app_nil_r. by destruct s.
  - destruct (IH (put_one s msg)) as (Hq & He & Hs).
    rewrite Hq, He. simpl. rewrite <- !app_assoc. split_and!; [done..|].
    rewrite Hs at 1. rewrite Hq, He. simpl. by rewrite <- !app_assoc.
Qed.

Lemma handle_start_eq (msgs : option (list Message)) (output_task_messages : bool) s :
  handle_start msgs output_task_messages s =
    if already_terminated s then
      (Return tt, signalled {| message := early_stop_message s; error := None |} s)
    else
      match (validate_group_state msgs (impl s)).1 with
      | Raise e => (Raise e, validated msgs s)
      | Return _ =>
          match msgs with
          | None => _transition_to_next_speakers (validated msgs s)
          | Some ms =>
              check_then_transition ms false
                (start_relayed ms output_task_messages (validated msgs s))
          end
      end.
Proof.
  unfold handle_start, already_terminated, check_then_transition.
  unfold bind at 1, gets at 1.
  destruct (match _termination_condition s with Some c => tc_terminated c | None => false end);
    [done|].
  unfold bind at 1, call_validate_group_state at 1, validated.
  destruct (validate_group_state msgs (impl s)) as [[[]|e] sub]; simpl; [|done].
  destruct msgs as [ms|].
  - unfold bind at 1. unfold bind at 1, gets at 1. unfold bind at 1.
    unfold publish_message at 1, modify at 1. unfold bind at 1.
    unfold start_relayed.
    destruct output_task_messages; simpl.
    + rewrite put_messages_eq.
      unfold bind at 1, gets at 1. unfold bind at 1, publish_message at 1, modify at 1.
      unfold bind at 1, update_message_thread at 1, modify at 1.
      destruct (messages_put_fields ms
        (log (Published (_output_topic_type s) (GroupChatStart (Some ms) true))
           (set_impl sub (log (ValidateCalled (Some ms)) s)))) as (_ & _ & Hs).
      rewrite Hs. simpl.
      destruct (_apply_termination_condition _ _ _) as [[[|]|e] s3]; done.
    + unfold ret at 1.
      unfold bind at 1, gets at 1. unfold bind at 1, publish_message at 1, modify at 1.
      unfold bind at 1, update_message_thread at 1, modify at 1. simpl.
      destruct (_apply_termination_condition _ _ _) as [[[|]|e] s3]; done.
  - unfold bind at 1, ret at 1. done.
Qed.

Lemma same_config_refl s : same_config s s.
Proof. by repeat split. Qed.

Lemma same_config_trans s1 s2 s3 :
  same_config s1 s2 → same_config s2 s3 → same_config s1 s3.
Proof. unfold same_config. intros ? ?. split_and!; destruct_and!; congruence. Qed.

Lemma count_where_app {A} (p : A → bool) (l l' : list A) :
  count_where p (l ++ l') = count_where p l + count_where p l'.
Proof. induction l as [|x l IH]; simpl; [done|]. rewrite IH. lia. Qed.

Lemma terminations_app (q q' : list QueueItem) :
  terminations (q ++ q') = terminations q + terminations q'.
Proof. apply count_where_app. Qed.

Lemma terminations_messages (ms : list Message) :
  terminations (QMessage <$> ms) = 0.
Proof. induction ms as [|m ms IH]; [done|]. simpl. apply IH. Qed.

Lemma condition_deltas_app (l l' : list Effect) :
  omap condition_delta (l ++ l') = omap condition_delta l ++ omap condition_delta l'.
Proof. apply omap_app. Qed.

(** Rewriting an observation of effects that end in a known list. *)
Ltac observe :=
  unfold queued_terminations, selector_calls, requests, condition_resets,
    condition_deltas;
  cbn [fst snd effects _output_message_queue _current_turn _message_thread
       _active_speakers _termination_condition impl _max_turns _name
       _output_topic_type _group_topic_type _participant_names
       _participant_name_to_topic_type _participant_descriptions
       _emit_team_events
       log set_effects set_output_message_queue set_current_turn
       set_message_thread set_active_speakers set_termination_condition
       set_impl with_mutable];
  rewrite ?terminations_app, ?count_where_app, ?condition_deltas_app;
  cbn; rewrite ?app_nil_r.

Lemma apply_termination_condition_spec (delta : list Message) (inc : bool) s r s' :
  _apply_termination_condition delta inc s = (r, s') →
  same_config s s'
  ∧ _message_thread s' = _message_thread s
  ∧ _active_speakers s' = _active_speakers s
  ∧ impl s' = impl s
  ∧ selector_calls s' = selector_calls s
  ∧ requests s' = requests s
  ∧ condition_deltas s'
    = condition_deltas s
      ++ match _termination_condition s with Some _ => [delta] | None => [] end
  ∧ match r with
    | Return true =>
        queued_terminations s' = S (queued_terminations s)
        ∧ _current_turn s' = 0%Z
    | Return false =>
        _output_message_queue s' = _output_message_queue s
        ∧ condition_resets s' = condition_resets s
        ∧ _current_turn s' = (_current_turn s + (if inc then 1 else 0))%Z
        ∧ ∀ n, _max_turns s = Some n → (_current_turn s' < n)%Z
    | Raise e =>
        _output_message_queue s' = _output_message_queue s
        ∧ condition_resets s' = condition_resets s
        ∧ _current_turn s' = _current_turn s
    end.
Proof.
  rewrite apply_termination_condition_eq.
  unfold condition_answer, condition_called, stopped_with, condition_reset,
    turn_counted, signalled, same_config.
  destruct (_termination_condition s) as [c|] eqn:Hc.
  - destruct (tc_call delta c) as [[[stop|]|e] c']; simpl.
    + intros [= <- <-]. observe. split_and!; try done; lia.
    + destruct inc, (_max_turns s) as [n|] eqn:Hmax; simpl; try case_bool_decide;
        intros [= <- <-]; observe; split_and!; try done; try lia;
        try (intros ? [= <-]; lia).
    + intros [= <- <-]. observe. split_and!; try done; lia.
  - destruct inc, (_max_turns s) as [n|] eqn:Hmax; simpl; try case_bool_decide;
      intros [= <- <-]; simpl; rewrite ?Hc; observe; split_and!; try done; try lia;
      try (intros ? [= <-]; lia).
Qed.

Lemma requested_frame (speaker_names : list string) s :
  let s' := requested speaker_names s in
  s' = set_effects (effects s') (set_active_speakers (_active_speakers s') s)
  ∧ selector_calls s' = selector_calls s
  ∧ condition_deltas s' = condition_deltas s
  ∧ condition_resets s' = condition_resets s.
Proof.
  revert s. induction speaker_names as [|n rest IH]; intros s; simpl.
  - split; [by destruct s|done].
  - destruct (IH (requested_one s n)) as (Hs & Hsel & Hdeltas & Hresets).
    rewrite Hsel, Hdeltas, Hresets. split.
    + rewrite Hs at 1. unfold requested_one.
      by destruct (_participant_name_to_topic_type s !! n).
    + unfold requested_one.
      destruct (_participant_name_to_topic_type s !! n); [|done].
      observe. split_and!; [lia|done|lia].
Qed.

Lemma requested_known (speaker_names : list string) s :
  first_unknown (_participant_name_to_topic_type s) speaker_names = None →
  let s' := requested speaker_names s in
  _active_speakers s' = _active_speakers s ++ speaker_names
  ∧ requests s' = requests s + length speaker_names.
Proof.
  revert s. induction speaker_names as [|n rest IH]; intros s; simpl.
  - intros _. by rewrite app_nil_r, Nat.add_0_r.
  - case_bool_decide as Hn; [done|]. intros Hrest.
    rewrite <- (requested_one_registry s n) in Hrest.
    destruct (IH _ Hrest) as [Hactive Hreq]. rewrite Hactive, Hreq.
    unfold requested_one.
    destruct (_participant_name_to_topic_type s !! n); [|done].
    observe. rewrite <- app_assoc. split; [done|lia].
Qed.

Lemma transition_to_next_speakers_spec s r s' :
  _transition_to_next_speakers s = (r, s') →
  same_config s s'
  ∧ _message_thread s' = _message_thread s
  ∧ _current_turn s' = _current_turn s
  ∧ _termination_condition s' = _termination_condition s
  ∧ queued_terminations s' = queued_terminations s
  ∧ selector_calls s' = S (selector_calls s)
  ∧ condition_deltas s' = condition_deltas s
  ∧ condition_resets s' = condition_resets s
  ∧ match r with
    | Return _ =>
        ∃ selection,
          (select_speaker (_message_thread s) (impl s)).1 = Return selection
          ∧ Forall (λ n, is_Some (_participant_name_to_topic_type s !! n))
              (speaker_list selection)
          ∧ _active_speakers s' = _active_speakers s ++ speaker_list selection
          ∧ requests s' = requests s + length (speaker_list selection)
    | Raise e =>
        _active_speakers s' = _active_speakers s
        ∧ _output_message_queue s' = _output_message_queue s
        ∧ requests s' = requests s
    end.
Proof.
  rewrite transition_to_next_speakers_eq.
  destruct ((select_speaker (_message_thread s) (impl s)).1) as [selection|e] eqn:Hsel;
    [|intros [= <- <-]; unfold selected, same_config; observe;
      split_and!; try done; lia].
  simpl. destruct (first_unknown _ _) as [x|] eqn:Hfirst;
    [intros [= <- <-]; unfold selected, same_config; observe;
     split_and!; try done; lia|].
  intros [= <- <-].
  set (s1 := selection_logged (speaker_list selection) (selected s)).
  assert (_participant_name_to_topic_type s1 = _participant_name_to_topic_type s) as Hreg.
  { unfold s1, selection_logged, selected. by destruct (_emit_team_events _). }
  destruct (requested_frame (speaker_list selection) s1) as (Hs & Hcalls & Hdeltas & Hresets).
  destruct (requested_known (speaker_list selection) s1) as [Hactive Hreq];
    [by rewrite Hreg|].
  rewrite Hcalls, Hdeltas, Hresets.
  assert (same_config s s1 ∧ _message_thread s1 = _message_thread s
          ∧ _current_turn s1 = _current_turn s
          ∧ _termination_condition s1 = _termination_condition s
          ∧ queued_terminations s1 = queued_terminations s
          ∧ selector_calls s1 = S (selector_calls s)
          ∧ condition_deltas s1 = condition_deltas s
          ∧ condition_resets s1 = condition_resets s
          ∧ _active_speakers s1 = _active_speakers s
          ∧ requests s1 = requests s) as Hs1.
  { unfold s1, selection_logged, selected, same_config.
    cbn [_emit_team_events set_impl log set_effects with_mutable].
    destruct (_emit_team_events s) eqn:Hemit; observe; split_and!; try done; lia. }
  destruct Hs1 as (Hcfg & ? & ? & ? & ? & ? & ? & ? & Hact1 & Hreq1).
  assert (same_config s1 (requested (speaker_list selection) s1)
          ∧ _message_thread (requested (speaker_list selection) s1) = _message_thread s1
          ∧ _current_turn (requested (speaker_list selection) s1) = _current_turn s1
          ∧ _termination_condition (requested (speaker_list selection) s1)
            = _termination_condition s1
          ∧ queued_terminations (requested (speaker_list selection) s1)
            = queued_terminations s1) as (Hcfg' & ? & ? & ? & ?).
  { rewrite Hs. unfold same_config, queued_terminations. by cbn. }
  split_and!; try congruence.
  - by eapply same_config_trans.
  - exists selection. rewrite Hactive, Hreq, <- Hact1, <- Hreq1.
    split_and!; try done. by apply first_unknown_None.
Qed.

Lemma start_relayed_frame (ms : list Message) (output_task_messages : bool) s :
  let s' := start_relayed ms output_task_messages s in
  same_config s s'
  ∧ _message_thread s' = _message_thread s ++ ms
  ∧ _output_message_queue s'
    = _output_message_queue s ++ (QMessage <$> (if output_task_messages then ms else []))
  ∧ queued_terminations s' = queued_terminations s
  ∧ _current_turn s' = _current_turn s
  ∧ _active_speakers s' = _active_speakers s
  ∧ _termination_condition s' = _termination_condition s
  ∧ impl s' = impl s
  ∧ selector_calls s' = selector_calls s
  ∧ requests s' = requests s
  ∧ condition_deltas s' = condition_deltas s
  ∧ condition_resets s' = condition_resets s.
Proof.
  unfold start_relayed, delta_appended.
  set (s0 := log (Published (_output_topic_type s) (GroupChatStart (Some ms) true)) s).
  generalize (if output_task_messages then ms else []). intros l.
  destruct (messages_put_fields l s0) as (Hq & He & Hs).
  assert (∀ p, (∀ msg, p (QueuePut (QMessage msg)) = false) →
               count_where p ((λ msg, QueuePut (QMessage msg)) <$> l) = 0) as Hcount.
  { intros p Hp. clear -Hp. induction l as [|msg l' IH]; simpl; [done|].
    by rewrite Hp. }
  assert (omap condition_delta ((λ msg, QueuePut (QMessage msg)) <$> l) = []) as Hdeltas.
  { clear. induction l as [|msg l' IH]; simpl; done. }
  simpl. rewrite Hs. unfold same_config.
  unfold queued_terminations, selector_calls, requests, condition_resets,
    condition_deltas.
  cbn [effects _output_message_queue _current_turn _message_thread
       _active_speakers _termination_condition impl _max_turns _name
       _output_topic_type _group_topic_type _participant_names
       _participant_name_to_topic_type _participant_descriptions
       _emit_team_events log set_effects set_output_message_queue
       set_message_thread with_mutable].
  rewrite Hq, He. unfold s0. cbn [effects _output_message_queue log set_effects with_mutable].
  rewrite ?terminations_app, ?count_where_app, ?condition_deltas_app.
  rewrite terminations_messages, !Hcount, Hdeltas by done. cbn.
  rewrite ?app_nil_r. split_and!; try done; lia.
Qed.

Lemma check_then_transition_spec (delta : list Message) (inc : bool) s r s' :
  check_then_transition delta inc s = (r, s') →
  same_config s s'
  ∧ _message_thread s' = _message_thread s
  ∧ condition_deltas s'
    = condition_deltas s
      ++ match _termination_condition s with Some _ => [delta] | None => [] end
  ∧ selector_calls s' ≤ S (selector_calls s)
  ∧ match r with
    | Raise e =>
        queued_terminations s' = queued_terminations s
        ∧ condition_resets s' = condition_resets s
    | Return _ => queued_terminations s' ≤ S (queued_terminations s)
    end
  ∧ ((_current_turn s' = 0%Z
      ∧ r = Return tt
      ∧ queued_terminations s' = S (queued_terminations s)
      ∧ selector_calls s' = selector_calls s
      ∧ requests s' = requests s)
     ∨ (_current_turn s' = (_current_turn s + (if inc then 1 else 0))%Z
        ∧ ∀ n, _max_turns s = Some n → (_current_turn s' < n)%Z)
     ∨ (_current_turn s' = _current_turn s ∧ ∃ e, r = Raise e)).
Proof.
  unfold check_then_transition.
  destruct (_apply_termination_condition delta inc s) as [[[|]|e] s1] eqn:Happly;
    apply apply_termination_condition_spec in Happly
      as (Hcfg & Hthread & _ & _ & Hcalls & Hreq & Hdeltas & Hr).
  - intros [= <- <-]. destruct Hr as [Hterm Hturn].
    split_and!; try done; try lia. left. split_and!; done.
  - destruct Hr as (Hq & Hresets & Hturn & Hlimit).
    intros (Hcfg' & Hthread' & Hturn' & _ & Hterm & Hcalls' & Hdeltas' & Hresets' & Hr')
      %transition_to_next_speakers_spec.
    unfold queued_terminations in *. rewrite Hq in Hterm.
    split_and!; [by eapply same_config_trans|congruence|congruence|lia| |].
    + destruct r; [lia|]. split; [done|congruence].
    + right; left. rewrite Hturn'. split; [done|].
      intros n Hn. by apply Hlimit.
  - intros [= <- <-]. destruct Hr as (Hq & Hresets & Hturn).
    unfold queued_terminations. rewrite Hq.
    split_and!; try done; try lia. right; right. eauto.
Qed.

Lemma handle_start_raise (msgs : option (list Message)) (output_task_messages : bool)
    s e s' :
  handle_start msgs output_task_messages s = (Raise e, s') →
  queued_terminations s' = queued_terminations s
  ∧ condition_resets s' = condition_resets s.
Proof.
  rewrite handle_start_eq. destruct (already_terminated s); [done|].
  destruct ((validate_group_state msgs (impl s)).1) eqn:Hvalid.
  - destruct msgs as [ms|].
    + intros (_ & _ & _ & _ & (Hterm & Hresets) & _)%check_then_transition_spec.
      destruct (start_relayed_frame ms output_task_messages (validated (Some ms) s))
        as (_ & _ & _ & Hterm' & _ & _ & _ & _ & _ & _ & _ & Hresets').
      rewrite Hterm, Hresets, Hterm', Hresets'. unfold validated. observe. split; lia.
    + intros (_ & _ & _ & _ & Hterm & _ & _ & Hresets & _)
        %transition_to_next_speakers_spec.
      rewrite Hterm, Hresets. unfold validated. observe. split; lia.
  - intros [= <- <-]. unfold validated. observe. split; lia.
Qed.


Lemma handle_agent_response_terminations (m : AgentOrTeamResponse) s r s' :
  handle_agent_response m s = (r, s') →
  match r with
  | Raise e =>
      queued_terminations s' = S (queued_terminations s)
      ∧ condition_resets s' = condition_resets s
  | Return _ => queued_terminations s' ≤ S (queued_terminations s)
  end.
Proof.
  rewrite handle_agent_response_eq. simpl.
  destruct (list_remove (name m) (_active_speakers s)) as [rest|].
  - case_bool_decide.
    + intros [= <- <-]. unfold delta_appended. observe. lia.
    + destruct (check_then_transition _ _ _) as [[[]|e] s1] eqn:Hcheck;
        apply check_then_transition_spec in Hcheck as (_ & _ & _ & _ & Hr & _);
        intros [= <- <-]; revert Hr; unfold signalled, delta_appended; observe; lia.
  - intros [= <- <-]. unfold signalled, delta_appended. observe. lia.
Qed.

Lemma signalled_frame (t : GroupChatTermination) s :
  let s' := signalled t s in
  same_config s s'
  ∧ _output_message_queue s' = _output_message_queue s ++ [QTermination t]
  ∧ queued_terminations s' = S (queued_terminations s)
  ∧ _message_thread s' = _message_thread s
  ∧ _active_speakers s' = _active_speakers s
  ∧ _current_turn s' = _current_turn s
  ∧ _termination_condition s' = _termination_condition s
  ∧ impl s' = impl s
  ∧ selector_calls s' = selector_calls s
  ∧ requests s' = requests s
  ∧ condition_deltas s' = condition_deltas s
  ∧ condition_resets s' = condition_resets s.
Proof.
  unfold signalled, same_config. observe. split_and!; try done; lia.
Qed.

Lemma list_remove_None (x : string) (l : list string) :
  list_remove x l = None ↔ x ∉ l.
Proof.
  induction l as [|y l IH]; simpl.
  - split; [intros _; apply not_elem_of_nil|done].
  - rewrite not_elem_of_cons. case_decide as Hxy.
    + split; [done|]. intros [? _]. done.
    + destruct (list_remove x l); simpl.
      * split; [done|]. intros [_ Hl]. by apply IH in Hl.
      * split; [|done]. intros _. split; [done|]. by apply IH.
Qed.

Lemma handle_start_turn (msgs : option (list Message)) (output_task_messages : bool)
    s r s' :
  handle_start msgs output_task_messages s = (r, s') →
  same_config s s'
  ∧ (_current_turn s' = 0%Z
     ∨ _current_turn s' = _current_turn s).
Proof.
  rewrite handle_start_eq. destruct (already_terminated s).
  { intros [= <- <-]. destruct (signalled_frame
      {| message := early_stop_message s; error := None |} s) as (? & _ & _ & _ & _ & ? & _).
    eauto. }
  assert (same_config s (validated msgs s)
          ∧ _current_turn (validated msgs s) = _current_turn s) as [Hcfg0 Hturn0].
  { unfold validated, same_config. by observe. }
  destruct ((validate_group_state msgs (impl s)).1); [|intros [= <- <-]; eauto].
  destruct msgs as [ms|].
  - destruct (start_relayed_frame ms output_task_messages (validated (Some ms) s))
      as (Hcfg1 & _ & _ & _ & Hturn1 & _).
    intros (Hcfg & _ & _ & _ & _ & Hturn)%check_then_transition_spec.
    split; [eauto using same_config_trans|].
    destruct Hturn as [(? & _)|[(Hturn & _)|(Hturn & _)]]; [by left|right..].
    + rewrite Hturn, Hturn1, Hturn0. lia.
    + congruence.
  - intros (Hcfg & _ & Hturn & _)%transition_to_next_speakers_spec.
    split; [eauto using same_config_trans|]. right. congruence.
Qed.

Lemma handle_agent_response_turn (m : AgentOrTeamResponse) s r s' :
  handle_agent_response m s = (r, s') →
  same_config s s'
  ∧ ((_current_turn s' = _current_turn s
      ∧ list_remove (name m) (_active_speakers s) ≠ Some [])
     ∨ (list_remove (name m) (_active_speakers s) = Some []
        ∧ ((_current_turn s' = 0%Z
            ∧ queued_terminations s' = S (queued_terminations s))
           ∨ (_current_turn s' = (_current_turn s + 1)%Z
              ∧ ∀ n, _max_turns s = Some n → (_current_turn s' < n)%Z)
           ∨ (_current_turn s' = _current_turn s
              ∧ queued_terminations s' = S (queued_terminations s))))).
Proof.
  rewrite handle_agent_response_eq. simpl.
  assert (same_config s (delta_appended (response_delta m) s)) as Hcfg0.
  { unfold delta_appended, same_config. by observe. }
  destruct (list_remove (name m) (_active_speakers s)) as [rest|].
  - case_bool_decide as Hrest.
    + intros [= <- <-]. split; [done|]. left. split; [done|].
      intros [= ->]. simpl in Hrest. lia.
    + assert (rest = []) as -> by (destruct rest; [done|simpl in Hrest; lia]).
      set (s2 := set_active_speakers [] (delta_appended (response_delta m) s)).
      assert (same_config s s2 ∧ _current_turn s2 = _current_turn s
              ∧ queued_terminations s2 = queued_terminations s
              ∧ _max_turns s2 = _max_turns s) as (Hcfg2 & Hturn2 & Hterm2 & Hmax2).
      { unfold s2, delta_appended, same_config. by observe. }
      destruct (check_then_transition _ _ s2) as [r1 s1] eqn:Hcheck.
      apply check_then_transition_spec in Hcheck
        as (Hcfg & _ & _ & _ & Hterm & Hturn).
      rewrite Hturn2, Hterm2, Hmax2 in Hturn. rewrite Hterm2 in Hterm.
      assert (same_config s s1) as Hcfg1 by eauto using same_config_trans.
      destruct r1 as [[]|e]; cbn [except_signal]; intros [= <- <-].
      * split; [done|]. right. split; [done|].
        destruct Hturn as [(? & _ & ? & _)|[(? & ?)|(_ & ? & [=])]]; eauto.
      * destruct (signalled_frame (error_termination s1 (from_exception e)) s1)
          as (Hcfg3 & _ & -> & _ & _ & -> & _).
        split; [eauto using same_config_trans|]. right. split; [done|].
        destruct Hterm as [-> _].
        destruct Hturn as [(_ & [=] & _)|[(? & ?)|(? & _)]]; eauto.
  - intros [= <- <-].
    destruct (signalled_frame
      (error_termination (delta_appended (response_delta m) s)
         (from_exception (ValueError "list.remove(x): x not in list")))
      (delta_appended (response_delta m) s)) as (Hcfg2 & _ & _ & _ & _ & -> & _).
    split; [eauto using same_config_trans|]. left. done.
Qed.

Lemma on_message_turn (ev : GroupChatEvent) s :
  turn_in_range s →
  let s' := (on_message ev s).2 in
  turn_in_range s'
  ∧ _max_turns s' = _max_turns s
  ∧ ((_current_turn s < _current_turn s')%Z →
     _current_turn s' = (_current_turn s + 1)%Z
     ∧ ∃ m, ev = GroupChatResponse m
          ∧ list_remove (name m) (_active_speakers s) = Some [])
  ∧ (∀ m n,
       ev = GroupChatResponse m →
       list_remove (name m) (_active_speakers s) = Some [] →
       _max_turns s = Some n →
       (_current_turn s + 1 >= n)%Z →
       queued_terminations s' = S (queued_terminations s)).
Proof.
  intros [Hpos Hlimit]. unfold turn_in_range.
  destruct ev as [msgs output_task_messages|m|msg|err| | | | |t]; cbn [on_message].
  - destruct (handle_start msgs output_task_messages s) as [r s'] eqn:Hstart.
    apply handle_start_turn in Hstart as [(_ & _ & _ & _ & _ & _ & Hmax & _) Hturn].
    simpl. rewrite Hmax. split_and!; try done.
    + destruct Hturn as [-> | ->]; [lia|done].
    + intros n Hn.
      destruct Hturn as [-> | ->]; [specialize (Hlimit n Hn); lia|by apply Hlimit].
    + destruct Hturn as [-> | ->]; lia.
  - destruct (handle_agent_response m s) as [r s'] eqn:Hresponse.
    apply handle_agent_response_turn in Hresponse
      as [(_ & _ & _ & _ & _ & _ & Hmax & _) Hturn].
    simpl. rewrite Hmax.
    destruct Hturn as [[Hturn Hopen]|[Hround [[Hturn Hterm]|[[Hturn Hbelow]|[Hturn Hterm]]]]];
      rewrite Hturn; split_and!; try done; try lia;
      try (intros n Hn; specialize (Hlimit n Hn); lia);
      try (intros ?; split; [lia|by eauto]);
      try (intros m' n [= <-] ? ? ?; done).
    + intros n Hn. rewrite <- Hturn. by apply Hbelow.
    + intros m' n [= <-] _ Hn ?. specialize (Hbelow n Hn). lia.
  - unfold handle_group_chat_message, queue_put, modify. observe.
    split_and!; try done; lia.
  - unfold handle_group_chat_error. rewrite signal_termination_with_error_eq.
    unfold signalled. observe. split_and!; try done; lia.
  - unfold handle_reset, reset, modify. observe. split_and!; try done; try lia.
    intros n Hn. specialize (Hlimit n Hn). lia.
  - unfold handle_pause, ret. observe. split_and!; try done; lia.
  - unfold handle_resume, ret. observe. split_and!; try done; lia.
  - unfold on_unhandled_message, raise. observe. split_and!; try done; lia.
  - unfold on_unhandled_message, raise. observe. split_and!; try done; lia.
Qed.

Lemma run_turn (evs : list GroupChatEvent) s :
  turn_in_range s → turn_in_range (run evs s).
Proof.
  revert s. induction evs as [|ev evs IH]; intros s Hs; [done|].
  simpl. apply IH. by apply on_message_turn.
Qed.

Lemma init_turn
    (self_name group_topic_type output_topic_type : string)
    (participant_topic_types participant_names participant_descriptions : list string)
    (output_message_queue : list QueueItem) (termination_condition : option C)
    (max_turns : option Z) (emit_team_events : bool) (sub : Sub) s :
  __init__ self_name group_topic_type output_topic_type participant_topic_types
    participant_names participant_descriptions output_message_queue
    termination_condition max_turns emit_team_events sub = Return s →
  turn_in_range s.
Proof.
  unfold __init__, turn_in_range.
  destruct max_turns as [limit|].
  - case_bool_decide; [done|]. repeat (case_bool_decide; [done|]).
    destruct (zip_strict _ _); [|done]. intros [= <-]. simpl.
    split; [done|]. intros n [= <-]. lia.
  - repeat (case_bool_decide; [done|]).
    destruct (zip_strict _ _); [|done]. intros [= <-]. simpl.
    split; [done|]. done.
Qed.

(** ** The claims *)


(** C10.  A response from a participant that is not among the active
    speakers: its delta is appended to the thread, then [remove] raises; the
    handler queues one termination event with that error and raises it
    again.  The turn counter and the active speakers are as before. *)
Theorem unsolicited_response (m : AgentOrTeamResponse) s :
  name m ∉ _active_speakers s →
  let e := ValueError "list.remove(x): x not in list" in
  let t := {| message := {| content := "An error occurred in the group chat.";
                            source := _name s |};
              error := Some (from_exception e) |} in
  ∃ s',
    handle_agent_response m s = (Raise e, s')
    ∧ _message_thread s' = _message_thread s ++ response_delta m
    ∧ _output_message_queue s' = _output_message_queue s ++ [QTermination t]
    ∧ queued_terminations s' = S (queued_terminations s)
    ∧ _active_speakers s' = _active_speakers s
    ∧ _current_turn s' = _current_turn s
    ∧ selector_calls s' = selector_calls s
    ∧ condition_deltas s' = condition_deltas s.
Proof.
  intros Hname e t. apply list_remove_None in Hname.
  rewrite handle_agent_response_eq. simpl. rewrite Hname.
  eexists. split; [reflexivity|].
  unfold signalled, error_termination, delta_appended. observe.
  split_and!; try done; lia.
Qed.

(** C6.  A response that completes the round, with a condition that does not
    signal (or no condition) and a counter that reaches the limit once
    incremented: the handler returns after queueing one termination event
    whose stop message reads "Maximum number of turns <limit> reached.".  The
    condition, when there is one, has been called on the delta and reset; the
    counter is zero.  The effects end there: the selector is not called and
    nobody is asked to publish. *)
Theorem max_turns_reached (m : AgentOrTeamResponse) s (n : Z) :
  list_remove (name m) (_active_speakers s) = Some [] →
  (∀ c, _termination_condition s = Some c →
        (tc_call (response_delta m) c).1 = Return None) →
  _max_turns s = Some n →
  (_current_turn s + 1 >= n)%Z →
  let delta := response_delta m in
  let stop := {| content := "Maximum number of turns " +:+ pretty n +:+ " reached.";
                 source := _name s |} in
  let t := {| message := stop; error := None |} in
  ∃ s',
    handle_agent_response m s = (Return tt, s')
    ∧ _output_message_queue s' = _output_message_queue s ++ [QTermination t]
    ∧ queued_terminations s' = S (queued_terminations s)
    ∧ _current_turn s' = 0%Z
    ∧ _termination_condition s'
      = (λ c, tc_reset (tc_call delta c).2) <$> _termination_condition s
    ∧ effects s'
      = effects s
        ++ match _termination_condition s with
           | Some _ => [ConditionCalled delta; ConditionReset]
           | None => []
           end
        ++ [Published (_output_topic_type s) (GroupChatTerminationEvent t);
            QueuePut (QTermination t)]
    ∧ _message_thread s' = _message_thread s ++ delta
    ∧ _active_speakers s' = []
    ∧ impl s' = impl s.
Proof.
  intros Hround Hquiet Hmax Hturn delta stop t.
  rewrite handle_agent_response_eq. simpl. rewrite Hround. simpl.
  unfold check_then_transition. rewrite apply_termination_condition_eq.
  unfold condition_answer, condition_called, turn_counted, stopped_with,
    condition_reset, signalled, delta_appended.
  cbn [_termination_condition _max_turns _current_turn _name set_active_speakers
       set_message_thread with_mutable].
  rewrite Hmax.
  destruct (_termination_condition s) as [c|] eqn:Hc.
  - rewrite (Hquiet c eq_refl). cbn.
    rewrite bool_decide_eq_true_2 by done.
    eexists. split; [reflexivity|].
    observe. rewrite <- !app_assoc. split_and!; try done. lia.
  - cbn. rewrite Hc. cbn. rewrite bool_decide_eq_true_2 by done.
    eexists. split; [reflexivity|].
    observe. rewrite <- ?app_assoc. split_and!; try done. lia.
Qed.



(** C8, amended.  When [_apply_termination_condition] stops the conversation
    (a stop of the condition, or the turn limit) and a condition is
    configured, the condition is reset before the termination event is
    published and queued, and the counter is zero; for a condition whose
    reset clears the flag, the flag is false afterwards.  The terminations
    with an error do not reset the condition: neither
    [handle_group_chat_error] nor the [except] clause of
    [handle_agent_response] calls [reset], and the start handler leaves the
    condition as it is when it raises. *)
Theorem stop_resets_condition s (c : C) :
  (∀ c', tc_terminated (tc_reset c') = false) →
  _termination_condition s = Some c →
  (∀ delta inc s',
     _apply_termination_condition delta inc s = (Return true, s') →
     ∃ t c',
       effects s'
       = effects s ++ [ConditionCalled delta; ConditionReset;
                       Published (_output_topic_type s) (GroupChatTerminationEvent t);
                       QueuePut (QTermination t)]
       ∧ _output_message_queue s' = _output_message_queue s ++ [QTermination t]
       ∧ error t = None
       ∧ _termination_condition s' = Some c'
       ∧ tc_terminated c' = false
       ∧ _current_turn s' = 0%Z)
  ∧ (∀ err,
       condition_resets (handle_group_chat_error err s).2 = condition_resets s
       ∧ _termination_condition (handle_group_chat_error err s).2 = Some c)
  ∧ (∀ m e s',
       handle_agent_response m s = (Raise e, s') →
       condition_resets s' = condition_resets s)
  ∧ (∀ msgs output_task_messages e s',
       handle_start msgs output_task_messages s = (Raise e, s') →
       condition_resets s' = condition_resets s).
Proof.
  intros Hcontract Hc. split_and!.
  - intros delta inc s'. rewrite apply_termination_condition_eq.
    unfold condition_answer, condition_called, turn_counted, stopped_with,
      condition_reset, signalled.
    rewrite Hc.
    destruct (tc_call delta c) as [[[stop|]|e] c'] eqn:Hcall; simpl; [| |done].
    + intros [= <-]. eexists _, _. observe. rewrite <- !app_assoc.
      split_and!; try done.
    + destruct inc, (_max_turns s) as [n|]; simpl; try done;
        (case_bool_decide; [|done]);
        intros [= <-]; eexists _, _; observe; rewrite <- !app_assoc;
        split_and!; done.
  - intros err. unfold handle_group_chat_error.
    rewrite signal_termination_with_error_eq. unfold signalled. observe.
    split; [lia|done].
  - intros m e s' Hraise.
    by apply handle_agent_response_terminations in Hraise as [_ ?].
  - intros msgs output_task_messages e s' Hraise.
    by apply handle_start_raise in Hraise as [_ ?].
Qed.


(** C7, amended.  Two distinct participants are the active speakers and both
    respond, in either order.  The first response is appended to the thread
    and its sender leaves the active speakers; nothing else happens: no
    effect at all, so no termination check and no selection.  After the
    second response the thread ends with both deltas in the order of arrival,
    the condition has been called on the second delta, and the selector has
    been called at most once: once exactly when the termination check of the
    completed round answers that the conversation goes on, and not at all
    when that check stops the conversation or raises. *)
Theorem two_active_speakers_respond (m1 m2 : AgentOrTeamResponse) s :
  name m1 ≠ name m2 →
  _active_speakers s ≡ₚ [name m1; name m2] →
  ∃ s1,
    handle_agent_response m1 s = (Return tt, s1)
    ∧ _message_thread s1 = _message_thread s ++ response_delta m1
    ∧ _active_speakers s1 = [name m2]
    ∧ effects s1 = effects s
    ∧ _output_message_queue s1 = _output_message_queue s
    ∧ _current_turn s1 = _current_turn s
    ∧ ∀ r s2,
        handle_agent_response m2 s1 = (r, s2) →
        _message_thread s2
        = _message_thread s ++ response_delta m1 ++ response_delta m2
        ∧ condition_deltas s2
          = condition_deltas s
            ++ match _termination_condition s with
               | Some _ => [response_delta m2]
               | None => []
               end
        ∧ selector_calls s2 ≤ S (selector_calls s)
        ∧ (selector_calls s2 = S (selector_calls s)
           ↔ ∃ s3,
               _apply_termination_condition (response_delta m2) true
                 (set_active_speakers []
                    (set_message_thread
                       (_message_thread s1 ++ response_delta m2) s1))
               = (Return false, s3)).
Proof.
  intros Hneq Hactive.
  assert (list_remove (name m1) (_active_speakers s) = Some [name m2]) as Hfirst.
  { apply Permutation_sym, Permutation_length_2_inv in Hactive as [-> | ->]; simpl.
    - by rewrite decide_True.
    - rewrite decide_False by done. by rewrite decide_True. }
  rewrite handle_agent_response_eq. simpl. rewrite Hfirst. simpl.
  eexists. split; [reflexivity|].
  unfold delta_appended. cbn [_message_thread _active_speakers effects
    _output_message_queue _current_turn set_active_speakers set_message_thread
    with_mutable].
  split_and!; try done.
  intros r s2. rewrite handle_agent_response_eq. simpl.
  rewrite decide_True by done. simpl. unfold delta_appended. simpl.
  unfold check_then_transition.
  match goal with
  | |- context [_apply_termination_condition _ _ ?st] => set (s1' := st)
  end.
  assert (_message_thread s1'
          = _message_thread s ++ response_delta m1 ++ response_delta m2
          ∧ selector_calls s1' = selector_calls s
          ∧ condition_deltas s1' = condition_deltas s
          ∧ _termination_condition s1' = _termination_condition s)
    as (Hthread1 & Hcalls1 & Hdeltas1 & Hc1).
  { unfold s1'. observe. by rewrite <- app_assoc. }
  destruct (_apply_termination_condition (response_delta m2) true s1')
    as [[[|]|e] s3] eqn:Happly;
    apply apply_termination_condition_spec in Happly
      as (_ & Hthread & _ & _ & Hcalls & _ & Hdeltas & _);
    rewrite Hthread1 in Hthread; rewrite Hcalls1 in Hcalls;
    rewrite Hdeltas1, Hc1 in Hdeltas.
  - cbn [except_signal]. intros [= <- <-].
    rewrite Hthread, Hcalls, Hdeltas. split_and!; try done; try lia.
    split; [lia|]. intros [? [=]].
  - destruct (_transition_to_next_speakers s3) as [[[]|e] s4] eqn:Htransition;
      apply transition_to_next_speakers_spec in Htransition
        as (_ & Hthread' & _ & _ & _ & Hcalls' & Hdeltas' & _);
      cbn [except_signal]; intros [= <- <-].
    + rewrite Hthread', Hcalls', Hdeltas', Hthread, Hcalls, Hdeltas.
      split_and!; try done. split; eauto.
    + destruct (signalled_frame (error_termination s4 (from_exception e)) s4)
        as (_ & _ & _ & -> & _ & _ & _ & _ & -> & _ & -> & _).
      rewrite Hthread', Hcalls', Hdeltas', Hthread, Hcalls, Hdeltas.
      split_and!; try done. split; eauto.
  - cbn [except_signal]. intros [= <- <-].
    destruct (signalled_frame (error_termination s3 (from_exception e)) s3)
      as (_ & _ & _ & -> & _ & _ & _ & _ & -> & _ & -> & _).
    rewrite Hthread, Hcalls, Hdeltas. split_and!; try done; try lia.
    split; [lia|]. intros [? [=]].
Qed.

(** C5.  From a constructed manager, after any sequence of events, in the
    handling of one more event: if the turn counter increases, it increases
    by exactly 1 and the event is a response that removes the last active
    speaker (so no start, relay, error, reset, pause or resume increments
    it); if a response removes the last active speaker while the counter is
    one below the limit or more, a termination event is queued in that step;
    and the counter is left non-negative and below the limit, so it never
    rests at the limit. *)
Theorem turn_counter_steps
    (self_name group_topic_type output_topic_type : string)
    (participant_topic_types participant_names participant_descriptions : list string)
    (output_message_queue : list QueueItem) (termination_condition : option C)
    (max_turns : option Z) (emit_team_events : bool) (sub : Sub)
    (s0 : Manager C Sub) (evs : list GroupChatEvent) (ev : GroupChatEvent) :
  __init__ self_name group_topic_type output_topic_type participant_topic_types
    participant_names participant_descriptions output_message_queue
    termination_condition max_turns emit_team_events sub = Return s0 →
  let s := run evs s0 in
  let s' := (on_message ev s).2 in
  ((_current_turn s < _current_turn s')%Z →
   _current_turn s' = (_current_turn s + 1)%Z
   ∧ ∃ m, ev = GroupChatResponse m
        ∧ list_remove (name m) (_active_speakers s) = Some [])
  ∧ (∀ m n,
       ev = GroupChatResponse m →
       list_remove (name m) (_active_speakers s) = Some [] →
       _max_turns s = Some n →
       (_current_turn s + 1 >= n)%Z →
       queued_terminations s' = S (queued_terminations s))
  ∧ (0 ≤ _current_turn s')%Z
  ∧ (∀ n, _max_turns s' = Some n → (_current_turn s' < n)%Z).
Proof.
  intros Hinit s s'.
  assert (turn_in_range s) as Hs by (apply run_turn; eapply init_turn; eauto).
  destruct (on_message_turn ev s Hs) as ([? ?] & _ & ? & ?).
  split_and!; done.
Qed.

(** ** Further properties of the handlers *)

Lemma list_remove_Some_perm (x : string) (l l' : list string) :
  list_remove x l = Some l' → l ≡ₚ x :: l'.
Proof.
  revert l'. induction l as [|y l IH]; intros l'; simpl; [done|].
  case_decide as Hxy.
  - intros [= <-]. by subst.
  - destruct (list_remove x l) as [rest|]; [|done]. simpl. intros [= <-].
    rewrite (IH rest eq_refl). apply perm_swap.
Qed.

Lemma list_remove_perm (x : string) (l l0 : list string) :
  l ≡ₚ x :: l0 → ∃ l', list_remove x l = Some l' ∧ l' ≡ₚ l0.
Proof.
  intros Hperm.
  destruct (list_remove x l) as [l'|] eqn:Hremove.
  - exists l'. split; [done|].
    apply list_remove_Some_perm in Hremove. rewrite Hremove in Hperm.
    by apply Permutation_cons_inv in Hperm.
  - apply list_remove_None in Hremove. exfalso. apply Hremove.
    rewrite Hperm. left.
Qed.

Lemma run_cons (ev : GroupChatEvent) (evs : list GroupChatEvent) s :
  run (ev :: evs) s = run evs (on_message ev s).2.
Proof. reflexivity. Qed.

(** X1.  A response that leaves other speakers active: its delta is appended,
    its sender is removed (the first occurrence of the name), and the handler
    returns without any effect: nothing is published or queued, the
    condition and the selector are not called, the counter stays. *)
Theorem response_while_others_active (m : AgentOrTeamResponse) s (rest : list string) :
  list_remove (name m) (_active_speakers s) = Some rest →
  rest ≠ [] →
  ∃ s',
    handle_agent_response m s = (Return tt, s')
    ∧ _message_thread s' = _message_thread s ++ response_delta m
    ∧ _active_speakers s' = rest
    ∧ effects s' = effects s
    ∧ _output_message_queue s' = _output_message_queue s
    ∧ _current_turn s' = _current_turn s
    ∧ _termination_condition s' = _termination_condition s
    ∧ impl s' = impl s.
Proof.
  intros Hremove Hrest. rewrite handle_agent_response_eq. simpl. rewrite Hremove.
  rewrite bool_decide_eq_true_2 by (destruct rest; [done|simpl; lia]).
  eexists. split; [reflexivity|]. unfold delta_appended. by observe.
Qed.

(** X2.  The responses of a round may arrive in any order.  If the names of the
    responses [ms], with one more name, are the active speakers up to order,
    then handling [ms] one after the other appends their deltas in the order
    of arrival and leaves that one name active; the round is not complete,
    and nothing else has happened. *)
Theorem responses_in_any_order (ms : list AgentOrTeamResponse) (awaited : string) s :
  _active_speakers s ≡ₚ (name <$> ms) ++ [awaited] →
  let s' := run (GroupChatResponse <$> ms) s in
  _message_thread s' = _message_thread s ++ concat (response_delta <$> ms)
  ∧ _active_speakers s' = [awaited]
  ∧ effects s' = effects s
  ∧ _output_message_queue s' = _output_message_queue s
  ∧ _current_turn s' = _current_turn s.
Proof.
  revert s. induction ms as [|m ms IH]; intros s Hactive; cbv zeta.
  - simpl. rewrite app_nil_r. split_and!; try done.
    by apply Permutation_singleton_r in Hactive.
  - rewrite !fmap_cons, run_cons. cbn [on_message concat].
    rewrite fmap_cons in Hactive. simpl in Hactive.
    destruct (list_remove_perm _ _ _ Hactive) as (rest & Hremove & Hrest).
    assert (rest ≠ []) as Hnonempty.
    { intros ->. apply Permutation_nil_l in Hrest. by destruct ms. }
    assert (handle_agent_response m s
            = (Return tt, set_active_speakers rest
                            (delta_appended (response_delta m) s))) as Hstep.
    { rewrite handle_agent_response_eq. simpl. rewrite Hremove.
      by rewrite bool_decide_eq_true_2 by (destruct rest; [done|simpl; lia]). }
    rewrite Hstep. cbn [snd].
    destruct (IH (set_active_speakers rest (delta_appended (response_delta m) s)))
      as (Hthread & Hawaited & Heffects & Hqueue & Hturn); [done|].
    rewrite Hthread, Hawaited, Heffects, Hqueue, Hturn.
    unfold delta_appended. observe. by rewrite <- app_assoc.
Qed.

(** X3.  A speaker transition whose selection is known to the registry: the
    selector is called once on the thread; the selection is logged on the
    output topic and on the queue exactly when team events are emitted; then
    every selected speaker, in the order of the selection, is sent one
    request on its own topic and becomes active.  A single name counts as a
    selection of one; an empty selection requests nobody. *)
Theorem transition_requests_selection s (selection : Speakers) :
  (select_speaker (_message_thread s) (impl s)).1 = Return selection →
  Forall (λ n, is_Some (_participant_name_to_topic_type s !! n))
    (speaker_list selection) →
  let speaker_names := speaker_list selection in
  let select_msg := SelectSpeakerEvent speaker_names (_name s) in
  ∃ s' topics,
    _transition_to_next_speakers s = (Return tt, s')
    ∧ Forall2 (λ n topic, _participant_name_to_topic_type s !! n = Some topic)
        speaker_names topics
    ∧ effects s'
      = effects s
        ++ [SelectCalled (_message_thread s)]
        ++ (if _emit_team_events s
            then [Published (_output_topic_type s) (GroupChatMessage select_msg);
                  QueuePut (QMessage select_msg)]
            else [])
        ++ ((λ topic, Published topic GroupChatRequestPublish) <$> topics)
    ∧ _active_speakers s' = _active_speakers s ++ speaker_names
    ∧ _output_message_queue s'
      = _output_message_queue s
        ++ (if _emit_team_events s then [QMessage select_msg] else [])
    ∧ _message_thread s' = _message_thread s
    ∧ _current_turn s' = _current_turn s.
Proof.
  intros Hsel Hknown. cbv zeta.
  rewrite transition_to_next_speakers_eq, Hsel. cbv zeta.
  apply first_unknown_None in Hknown as Hfirst. rewrite Hfirst.
  set (speaker_names := speaker_list selection) in *.
  set (s1 := selection_logged speaker_names (selected s)).
  assert (∀ s0 : Manager C Sub,
    Forall (λ n, is_Some (_participant_name_to_topic_type s0 !! n)) speaker_names →
    ∃ topics,
      Forall2 (λ n topic, _participant_name_to_topic_type s0 !! n = Some topic)
        speaker_names topics
      ∧ effects (requested speaker_names s0)
        = effects s0 ++ ((λ topic, Published topic GroupChatRequestPublish) <$> topics))
    as Hrequested.
  { clear. induction speaker_names as [|n rest IH]; intros s0 Hknown.
    - exists []. split; [constructor|]. simpl. by rewrite app_nil_r.
    - apply Forall_cons in Hknown as [[topic Htopic] Hrest].
      destruct (IH (requested_one s0 n)) as (topics & Htopics & Heffects).
      { by rewrite requested_one_registry. }
      exists (topic :: topics). split.
      + constructor; [done|]. by rewrite requested_one_registry in Htopics.
      + simpl. rewrite Heffects. unfold requested_one. rewrite Htopic.
        observe. by rewrite <- app_assoc. }
  assert (_participant_name_to_topic_type s1 = _participant_name_to_topic_type s) as Hreg.
  { unfold s1, selection_logged, selected. by destruct (_emit_team_events _). }
  destruct (Hrequested s1) as (topics & Htopics & Heffects); [by rewrite Hreg|].
  destruct (requested_frame speaker_names s1) as (Hs & _).
  destruct (requested_known speaker_names s1) as [Hactive _]; [by rewrite Hreg|].
  exists (requested speaker_names s1), topics. split; [done|].
  rewrite Hreg in Htopics. split; [done|].
  rewrite Heffects, Hactive. rewrite Hs.
  cbn [_output_message_queue _message_thread _current_turn set_effects
       set_active_speakers with_mutable].
  unfold s1, selection_logged, selected.
  cbn [_emit_team_events _name _output_topic_type set_impl log set_effects with_mutable].
  destruct (_emit_team_events s); observe; rewrite <- ?app_assoc; by rewrite ?app_nil_r.
Qed.

(** X4.  A task that the validator rejects leaves the manager as it was: the
    handler raises the exception of the validator before anything is
    published, queued or appended to the thread; the only effect is the call
    of the validator. *)
Theorem rejected_start_has_no_effect
    (msgs : option (list Message)) (output_task_messages : bool) s (e : Exception) :
  (∀ c, _termination_condition s = Some c → tc_terminated c = false) →
  (validate_group_state msgs (impl s)).1 = Raise e →
  ∃ s',
    handle_start msgs output_task_messages s = (Raise e, s')
    ∧ effects s' = effects s ++ [ValidateCalled msgs]
    ∧ _message_thread s' = _message_thread s
    ∧ _output_message_queue s' = _output_message_queue s
    ∧ _active_speakers s' = _active_speakers s
    ∧ _current_turn s' = _current_turn s
    ∧ _termination_condition s' = _termination_condition s.
Proof.
  intros Hnot Hvalid. rewrite handle_start_eq.
  assert (already_terminated s = false) as ->.
  { unfold already_terminated. destruct (_termination_condition s); eauto. }
  rewrite Hvalid. eexists. split; [reflexivity|]. unfold validated. by observe.
Qed.

Lemma apply_termination_condition_queue (delta : list Message) (inc : bool) s r s' :
  _apply_termination_condition delta inc s = (r, s') →
  _output_message_queue s `prefix_of` _output_message_queue s'.
Proof.
  rewrite apply_termination_condition_eq.
  unfold condition_answer, condition_called, stopped_with, condition_reset,
    turn_counted, signalled.
  destruct (_termination_condition s) as [c|] eqn:Hc.
  - destruct (tc_call delta c) as [[[stop|]|e] c']; simpl.
    + intros [= <- <-]. observe. by apply prefix_app_r.
    + destruct inc, (_max_turns s) as [n|]; simpl; try case_bool_decide;
        intros [= <- <-]; observe; first [done|by apply prefix_app_r].
    + intros [= <- <-]. by observe.
  - destruct inc, (_max_turns s) as [n|]; simpl; try case_bool_decide;
      intros [= <- <-]; simpl; rewrite ?Hc; observe;
      first [done|by apply prefix_app_r].
Qed.

Lemma transition_to_next_speakers_queue s r s' :
  _transition_to_next_speakers s = (r, s') →
  _output_message_queue s `prefix_of` _output_message_queue s'.
Proof.
  rewrite transition_to_next_speakers_eq.
  destruct ((select_speaker (_message_thread s) (impl s)).1) as [selection|e];
    [|intros [= <- <-]; unfold selected; by observe].
  simpl. destruct (first_unknown _ _) as [x|];
    [intros [= <- <-]; unfold selected; by observe|].
  intros [= <- <-].
  destruct (requested_frame (speaker_list selection)
              (selection_logged (speaker_list selection) (selected s))) as (-> & _).
  unfold selection_logged, selected.
  cbn [_emit_team_events set_impl log set_effects with_mutable].
  destruct (_emit_team_events s); observe; first [done|by apply prefix_app_r].
Qed.

Lemma check_then_transition_queue (delta : list Message) (inc : bool) s r s' :
  check_then_transition delta inc s = (r, s') →
  _output_message_queue s `prefix_of` _output_message_queue s'.
Proof.
  unfold check_then_transition.
  destruct (_apply_termination_condition delta inc s) as [[[|]|e] s1] eqn:Happly;
    apply apply_termination_condition_queue in Happly.
  - by intros [= <- <-].
  - intros Htransition%transition_to_next_speakers_queue. by etrans.
  - by intros [= <- <-].
Qed.

Lemma transition_to_next_speakers_active s r s' :
  _transition_to_next_speakers s = (r, s') →
  active_registered s → active_registered s'.
Proof.
  unfold active_registered.
  intros ((_ & _ & _ & _ & Hreg & _) & _ & _ & _ & _ & _ & _ & _ & Hr)
    %transition_to_next_speakers_spec Hknown.
  rewrite Hreg. destruct r.
  - destruct Hr as (selection & _ & Hsel & -> & _). apply Forall_app. done.
  - by destruct Hr as (-> & _).
Qed.

Lemma check_then_transition_active (delta : list Message) (inc : bool) s r s' :
  check_then_transition delta inc s = (r, s') →
  active_registered s → active_registered s'.
Proof.
  unfold check_then_transition.
  destruct (_apply_termination_condition delta inc s) as [[[|]|e] s1] eqn:Happly;
    apply apply_termination_condition_spec in Happly
      as ((_ & _ & _ & _ & Hreg & _) & _ & Hactive & _);
    intros Hrun Hknown;
    assert (active_registered s1)
      by (unfold active_registered; by rewrite Hreg, Hactive).
  - by injection Hrun as _ <-.
  - by eapply transition_to_next_speakers_active.
  - by injection Hrun as _ <-.
Qed.

(** X5.  Every participant that the manager waits for is in the registry: the
    handlers of the manager keep the active speakers among the keys of the
    registry, whatever the selector answers and however the handler ends. *)
Theorem active_speakers_stay_registered (ev : GroupChatEvent) s :
  ev ≠ GroupChatReset →
  active_registered s →
  active_registered (on_message ev s).2.
Proof.
  intros Hev Hknown.
  destruct ev as [msgs output_task_messages|m|msg|err| | | | |t]; cbn [on_message];
    try done.
  - rewrite handle_start_eq. destruct (already_terminated s); [done|].
    assert (active_registered (validated msgs s)) as Hvalidated by done.
    destruct ((validate_group_state msgs (impl s)).1); [|done].
    destruct msgs as [ms|].
    + destruct (check_then_transition _ _ _) as [r s'] eqn:Hcheck.
      apply check_then_transition_active in Hcheck; [done|].
      destruct (start_relayed_frame ms output_task_messages (validated (Some ms) s))
        as ((_ & _ & _ & _ & Hreg & _) & _ & _ & _ & _ & Hactive & _).
      unfold active_registered. by rewrite Hreg, Hactive.
    + destruct (_transition_to_next_speakers _) as [r s'] eqn:Htransition.
      by apply transition_to_next_speakers_active in Htransition.
  - rewrite handle_agent_response_eq. cbv zeta.
    assert (∀ outcome : Result unit * Manager C Sub,
              active_registered outcome.2 →
              active_registered (except_signal outcome).2) as Hexcept.
    { intros [[[]|e] s1]; done. }
    apply Hexcept.
    destruct (list_remove (name m) (_active_speakers s)) as [rest|] eqn:Hremove;
      [|done].
    assert (active_registered
              (set_active_speakers rest (delta_appended (response_delta m) s)))
      as Hrest.
    { apply list_remove_Some_perm in Hremove. unfold active_registered in *.
      rewrite Hremove in Hknown. by apply Forall_cons in Hknown as [_ ?]. }
    case_bool_decide; [done|].
    destruct (check_then_transition _ _ _) as [r s'] eqn:Hcheck.
    by apply check_then_transition_active in Hcheck.
Qed.


Lemma check_then_transition_thread (delta : list Message) (inc : bool) s r s' :
  check_then_transition delta inc s = (r, s') →
  same_config s s' ∧ _message_thread s' = _message_thread s.
Proof. by intros (? & ? & _)%check_then_transition_spec. Qed.

(** X6.  No handler of the manager takes anything back: the thread and the output
    queue after an event extend the thread and the queue before it, and the
    fields of the configuration (names, topics, registry, turn limit) are
    never assigned.  A response always leaves the thread extended by exactly
    its delta, however the handler ends. *)
Theorem handlers_only_append (ev : GroupChatEvent) s :
  ev ≠ GroupChatReset →
  let s' := (on_message ev s).2 in
  _message_thread s `prefix_of` _message_thread s'
  ∧ _output_message_queue s `prefix_of` _output_message_queue s'
  ∧ same_config s s'
  ∧ (∀ m, ev = GroupChatResponse m →
          _message_thread s' = _message_thread s ++ response_delta m).
Proof.
  intros Hev. cbv zeta.
  destruct ev as [msgs output_task_messages|m|msg|err| | | | |t]; cbn [on_message];
    try done.
  - rewrite handle_start_eq. destruct (already_terminated s).
    { unfold signalled, same_config. observe.
      split_and!; try done. by apply prefix_app_r. }
    assert (same_config s (validated msgs s)) as Hcfg0
      by (unfold validated, same_config; by observe).
    destruct ((validate_group_state msgs (impl s)).1).
    2:{ unfold validated. observe. done. }
    destruct msgs as [ms|].
    + destruct (start_relayed_frame ms output_task_messages (validated (Some ms) s))
        as (Hcfg1 & Hthread1 & Hq1 & _).
      destruct (check_then_transition _ _ _) as [r s'] eqn:Hcheck.
      pose proof (check_then_transition_queue _ _ _ _ _ Hcheck) as Hq.
      cbn [snd].
      apply check_then_transition_thread in Hcheck as [Hcfg ->].
      rewrite Hthread1. rewrite Hq1 in Hq.
      split_and!; try done.
      * unfold validated. observe. by apply prefix_app_r.
      * etrans; [|exact Hq]. unfold validated. observe. by apply prefix_app_r.
      * eauto using same_config_trans.
    + destruct (_transition_to_next_speakers _) as [r s'] eqn:Htransition.
      pose proof (transition_to_next_speakers_queue _ _ _ Htransition) as Hq.
      cbn [snd].
      apply transition_to_next_speakers_spec in Htransition as (Hcfg & -> & _).
      split_and!; try done; eauto using same_config_trans.
  - rewrite handle_agent_response_eq. cbv zeta.
    set (s1 := delta_appended (response_delta m) s).
    assert (∀ outcome : Result unit * Manager C Sub,
              _message_thread outcome.2 = _message_thread s1 →
              _output_message_queue s `prefix_of` _output_message_queue outcome.2 →
              same_config s outcome.2 →
              _message_thread (except_signal outcome).2
              = _message_thread s ++ response_delta m
              ∧ _output_message_queue s
                `prefix_of` _output_message_queue (except_signal outcome).2
              ∧ same_config s (except_signal outcome).2) as Hexcept.
    { intros [[[]|e] s2]; cbn [snd except_signal]; [done|].
      intros Hthread Hq Hcfg.
      destruct (signalled_frame (error_termination s2 (from_exception e)) s2)
        as (Hcfg' & -> & _ & -> & _).
      split_and!; [done| |eauto using same_config_trans].
      etrans; [exact Hq|]. by apply prefix_app_r. }
    match goal with
    | |- context [except_signal ?o] =>
        destruct (Hexcept o) as (Hthread & Hq & Hcfg)
    end.
    + destruct (list_remove _ _) as [rest|]; [|done].
      case_bool_decide; [done|].
      destruct (check_then_transition _ _ _) as [r s'] eqn:Hcheck. cbn [snd].
      by apply check_then_transition_thread in Hcheck as [_ ->].
    + destruct (list_remove _ _) as [rest|]; [|done].
      case_bool_decide; [done|].
      destruct (check_then_transition _ _ _) as [r s'] eqn:Hcheck. cbn [snd].
      by apply check_then_transition_queue in Hcheck.
    + assert (same_config s s1) by (unfold s1, delta_appended, same_config; by observe).
      destruct (list_remove _ _) as [rest|]; [|done].
      case_bool_decide; [done|].
      destruct (check_then_transition _ _ _) as [r s'] eqn:Hcheck. cbn [snd].
      apply check_then_transition_thread in Hcheck as [Hcfg _].
      eapply same_config_trans; [|exact Hcfg]. done.
    + rewrite Hthread. split_and!; try done.
      * by apply prefix_app_r.
      * by intros m' [= <-].
  - unfold handle_group_chat_message, queue_put, modify, same_config. observe.
    split_and!; try done. by apply prefix_app_r.
  - unfold handle_group_chat_error. rewrite signal_termination_with_error_eq.
    unfold signalled, same_config. observe.
    split_and!; try done. by apply prefix_app_r.
Qed.

Lemma requested_effects_prefix (speaker_names : list string) s :
  effects s `prefix_of` effects (requested speaker_names s).
Proof.
  revert s. induction speaker_names as [|n rest IH]; intros s; [done|].
  simpl. etrans; [|apply IH]. unfold requested_one.
  destruct (_ !! n); [|done]. observe. by apply prefix_app_r.
Qed.

Lemma transition_to_next_speakers_effects s r s' :
  _transition_to_next_speakers s = (r, s') →
  effects s ++ [SelectCalled (_message_thread s)] `prefix_of` effects s'.
Proof.
  rewrite transition_to_next_speakers_eq.
  assert (effects (selected s) = effects s ++ [SelectCalled (_message_thread s)])
    as Hselected by done.
  destruct ((select_speaker _ _).1) as [selection|e];
    [|intros [= <- <-]; by rewrite Hselected].
  cbv zeta. destruct (first_unknown _ _); [intros [= <- <-]; by rewrite Hselected|].
  intros [= <- <-]. rewrite <- Hselected.
  etrans; [|apply requested_effects_prefix].
  unfold selection_logged. destruct (_emit_team_events _); [|done].
  observe. rewrite <- app_assoc. by apply prefix_app_r.
Qed.

(** X7.  A start without messages relays nothing and checks nothing: when the
    manager is not terminated and the validator accepts, the thread is left
    as it is, the condition is not called and the turn limit is not looked
    at, so no termination event is queued; the selector is called once, on
    the thread as it was. *)
Theorem start_without_messages (output_task_messages : bool) s r s' :
  (∀ c, _termination_condition s = Some c → tc_terminated c = false) →
  (validate_group_state None (impl s)).1 = Return tt →
  handle_start None output_task_messages s = (r, s') →
  _message_thread s' = _message_thread s
  ∧ condition_deltas s' = condition_deltas s
  ∧ condition_resets s' = condition_resets s
  ∧ _current_turn s' = _current_turn s
  ∧ queued_terminations s' = queued_terminations s
  ∧ selector_calls s' = S (selector_calls s)
  ∧ effects s ++ [ValidateCalled None; SelectCalled (_message_thread s)]
    `prefix_of` effects s'.
Proof.
  intros Hnot Hvalid. rewrite handle_start_eq.
  assert (already_terminated s = false) as ->.
  { unfold already_terminated. destruct (_termination_condition s); eauto. }
  rewrite Hvalid. intros Htransition.
  assert (effects s ++ [ValidateCalled None; SelectCalled (_message_thread s)]
          `prefix_of` effects s') as Heffects.
  { apply transition_to_next_speakers_effects in Htransition.
    revert Htransition. unfold validated. observe. by rewrite <- app_assoc. }
  apply transition_to_next_speakers_spec in Htransition
    as (_ & -> & -> & _ & -> & -> & -> & -> & _).
  unfold validated. observe. split_and!; try done; lia.
Qed.

(** X8.  The task of a start reaches the thread and the queue whatever happens
    next: on a manager that is not terminated and whose validator accepts,
    however the handler ends (a stop, a transition, an exception of the
    condition or of the selector, an unknown speaker), the thread has been
    extended by exactly the task messages, and the queue continues the old
    queue with the task messages when they were asked for, and with nothing
    of them otherwise. *)
Theorem start_relays_task
    (ms : list Message) (output_task_messages : bool) s r s' :
  (∀ c, _termination_condition s = Some c → tc_terminated c = false) →
  (validate_group_state (Some ms) (impl s)).1 = Return tt →
  handle_start (Some ms) output_task_messages s = (r, s') →
  _message_thread s' = _message_thread s ++ ms
  ∧ _output_message_queue s
      ++ (QMessage <$> (if output_task_messages then ms else []))
    `prefix_of` _output_message_queue s'.
Proof.
  intros Hnot Hvalid. rewrite handle_start_eq.
  assert (already_terminated s = false) as ->.
  { unfold already_terminated. destruct (_termination_condition s); eauto. }
  rewrite Hvalid. intros Hcheck.
  destruct (start_relayed_frame ms output_task_messages (validated (Some ms) s))
    as (_ & Hthread & Hq & _).
  pose proof (check_then_transition_queue _ _ _ _ _ Hcheck) as Hprefix.
  apply check_then_transition_thread in Hcheck as [_ ->].
  rewrite Hq in Hprefix. split; [by rewrite Hthread|done].
Qed.

(** X9.  The turn limit never stops a start.  On a manager whose counter is in
    range (not negative, below the limit), that is not terminated, whose
    validator accepts and whose condition does not signal on the task, the
    start queues no termination event and leaves the counter alone: it goes
    on to call the selector, once. *)
Theorem start_reaches_selection
    (ms : list Message) (output_task_messages : bool) s r s' :
  turn_in_range s →
  (∀ c, _termination_condition s = Some c →
        tc_terminated c = false ∧ (tc_call ms c).1 = Return None) →
  (validate_group_state (Some ms) (impl s)).1 = Return tt →
  handle_start (Some ms) output_task_messages s = (r, s') →
  selector_calls s' = S (selector_calls s)
  ∧ queued_terminations s' = queued_terminations s
  ∧ _current_turn s' = _current_turn s.
Proof.
  intros [_ Hlimit] Hquiet Hvalid. rewrite handle_start_eq.
  assert (already_terminated s = false) as ->.
  { unfold already_terminated.
    destruct (_termination_condition s) as [c|]; [|done]. by apply Hquiet. }
  rewrite Hvalid.
  destruct (start_relayed_frame ms output_task_messages (validated (Some ms) s))
    as ((_ & _ & _ & _ & _ & _ & Hmax & _) & _ & _ & Hterm & Hturn & _ & Hc & _
        & Hcalls & _).
  set (s1 := start_relayed ms output_task_messages (validated (Some ms) s)) in *.
  assert (_max_turns s1 = _max_turns s ∧ _current_turn s1 = _current_turn s
          ∧ _termination_condition s1 = _termination_condition s
          ∧ queued_terminations s1 = queued_terminations s
          ∧ selector_calls s1 = selector_calls s)
    as (Hmax1 & Hturn1 & Hc1 & Hterm1 & Hcalls1).
  { rewrite Hmax, Hturn, Hc, Hterm, Hcalls. unfold validated. by observe. }
  clearbody s1. clear Hmax Hturn Hc Hterm Hcalls.
  unfold check_then_transition.
  destruct (_apply_termination_condition ms false s1) as [r1 s2] eqn:Happly.
  assert (r1 = Return false) as ->.
  { revert Happly. rewrite apply_termination_condition_eq.
    unfold condition_answer, turn_counted. rewrite Hc1, Hmax1.
    assert (match _termination_condition s with
            | Some c => (tc_call ms c).1
            | None => Return None
            end = Return None) as ->.
    { destruct (_termination_condition s) as [c|]; [|done]. by apply Hquiet. }
    destruct (_max_turns s) as [n|] eqn:Hn; [|by intros [= <- _]].
    rewrite bool_decide_eq_false_2; [by intros [= <- _]|].
    unfold condition_called. specialize (Hlimit n eq_refl).
    destruct (_termination_condition s1); cbn; lia. }
  apply apply_termination_condition_spec in Happly
    as (_ & _ & _ & _ & Hcalls2 & _ & _ & Hq2 & _ & Hturn2 & _).
  intros (_ & _ & -> & _ & -> & -> & _)%transition_to_next_speakers_spec.
  unfold queued_terminations at 1. rewrite Hq2, Hturn2, Hcalls2.
  fold (queued_terminations s1). split_and!; [congruence|congruence|lia].
Qed.

Lemma zip_strict_zip {A B} (l : list A) (k : list B) (r : list (A * B)) :
  zip_strict l k = Return r → r = zip l k ∧ length l = length k.
Proof.
  revert k r. induction l as [|x l IH]; intros [|y k] r; simpl; try done.
  - by intros [= <-].
  - destruct (zip_strict l k) as [r'|] eqn:Hzip; [|done]. intros [= <-].
    destruct (IH k r' Hzip) as [-> ->]. done.
Qed.

Lemma dict_of_pairs_snoc (pairs : list (string * string)) (k v : string) :
  dict_of_pairs (pairs ++ [(k, v)]) = <[k := v]> (dict_of_pairs pairs).
Proof. unfold dict_of_pairs. by rewrite foldl_app. Qed.

Lemma dict_of_pairs_last (ps1 ps2 : list (string * string)) (k v : string) :
  k ∉ ps2.*1 → dict_of_pairs (ps1 ++ (k, v) :: ps2) !! k = Some v.
Proof.
  induction ps2 as [|[k' v'] ps2 IH] using rev_ind; intros Hk.
  - by rewrite dict_of_pairs_snoc, lookup_insert_eq.
  - rewrite fmap_app, not_elem_of_app in Hk. destruct Hk as [Hk Hk'].
    rewrite app_comm_cons, app_assoc, dict_of_pairs_snoc.
    rewrite lookup_insert_ne; [by apply IH|].
    intros ->. apply Hk'. simpl. left.
Qed.

Lemma dict_of_pairs_lookup (pairs : list (string * string)) (k v : string) :
  dict_of_pairs pairs !! k = Some v → (k, v) ∈ pairs.
Proof.
  induction pairs as [|[k' v'] pairs IH] using rev_ind; [done|].
  rewrite dict_of_pairs_snoc, elem_of_app.
  destruct (decide (k' = k)) as [->|Hne].
  - rewrite lookup_insert_eq. intros [= ->]. right. left.
  - rewrite lookup_insert_ne by done. intros ?%IH. by left.
Qed.

Lemma dict_of_pairs_is_Some (pairs : list (string * string)) (k : string) :
  is_Some (dict_of_pairs pairs !! k) ↔ k ∈ pairs.*1.
Proof.
  induction pairs as [|[k' v'] pairs IH] using rev_ind.
  - unfold dict_of_pairs. simpl. rewrite lookup_empty.
    split; [by intros [? ?]|by intros ?%elem_of_nil].
  - rewrite dict_of_pairs_snoc, fmap_app, elem_of_app. simpl.
    rewrite list_elem_of_singleton.
    destruct (decide (k' = k)) as [->|Hne].
    + rewrite lookup_insert_eq. split; eauto.
    + rewrite lookup_insert_ne, IH by done. split; [by left|].
      intros [?|?]; [done|congruence].
Qed.

(** X10.  The registry of a constructed manager.  Its keys are exactly the
    participant names; every value is a participant topic; a name is mapped
    to the topic at its own position, and when a name occurs more than once
    (which the constructor accepts) to the topic at its last position.  The
    manager starts with an empty thread, a zero counter, no active speaker,
    and the queue it was given. *)
Theorem init_registers_participants
    (self_name group_topic_type output_topic_type : string)
    (participant_topic_types participant_names participant_descriptions : list string)
    (output_message_queue : list QueueItem) (termination_condition : option C)
    (max_turns : option Z) (emit_team_events : bool) (sub : Sub) s :
  __init__ self_name group_topic_type output_topic_type participant_topic_types
    participant_names participant_descriptions output_message_queue
    termination_condition max_turns emit_team_events sub = Return s →
  (∀ n, is_Some (_participant_name_to_topic_type s !! n) ↔ n ∈ participant_names)
  ∧ (∀ n t, _participant_name_to_topic_type s !! n = Some t →
            t ∈ participant_topic_types)
  ∧ (∀ ns1 n ns2 ts1 t ts2,
       participant_names = ns1 ++ n :: ns2 →
       participant_topic_types = ts1 ++ t :: ts2 →
       length ns1 = length ts1 →
       n ∉ ns2 →
       _participant_name_to_topic_type s !! n = Some t)
  ∧ _message_thread s = []
  ∧ _current_turn s = 0%Z
  ∧ _active_speakers s = []
  ∧ _output_message_queue s = output_message_queue.
Proof.
  unfold __init__.
  destruct (match max_turns with
            | Some n => bool_decide (n ≤ 0)%Z
            | None => false
            end); [done|].
  repeat (case_bool_decide; [done|]).
  destruct (zip_strict participant_names participant_topic_types) as [pairs|] eqn:Hzip;
    [|done].
  apply zip_strict_zip in Hzip as [-> Hlen]. intros [= <-]. simpl.
  split_and!; try done.
  - intros n. rewrite dict_of_pairs_is_Some, fst_zip by lia. done.
  - intros n t Hlookup%dict_of_pairs_lookup.
    apply (list_elem_of_fmap_2 snd) in Hlookup. simpl in Hlookup.
    rewrite snd_zip in Hlookup by lia. done.
  - intros ns1 n ns2 ts1 t ts2 -> -> Hlen1 Hn.
    rewrite zip_with_app by done. simpl. apply dict_of_pairs_last.
    rewrite !length_app in Hlen. simpl in Hlen.
    rewrite fst_zip by lia. done.
Qed.

(** X11.  A stop of the condition comes before the turn limit.  When the condition
    answers with a stop message, [_apply_termination_condition] signals that
    message, whatever the counter and the limit are and whether or not the
    turn was to be counted: the turn is not counted, the counter is zeroed
    and the condition is reset once. *)
Theorem condition_stop_precedes_limit
    (delta : list Message) (inc : bool) s (c c' : C) (stop : StopMessage) :
  _termination_condition s = Some c →
  tc_call delta c = (Return (Some stop), c') →
  ∃ s',
    _apply_termination_condition delta inc s = (Return true, s')
    ∧ _output_message_queue s'
      = _output_message_queue s ++ [QTermination {| message := stop; error := None |}]
    ∧ _current_turn s' = 0%Z
    ∧ _termination_condition s' = Some (tc_reset c')
    ∧ condition_resets s' = S (condition_resets s)
    ∧ condition_deltas s' = condition_deltas s ++ [delta].
Proof.
  intros Hc Hcall. rewrite apply_termination_condition_eq.
  unfold condition_answer, condition_called, stopped_with, condition_reset,
    signalled.
  rewrite Hc, Hcall. eexists. split; [reflexivity|].
  observe. split_and!; try done. lia.
Qed.

End Equations.

(** ** The "edit this page" link *)

Lemma string_app_assoc (a b c : string) : (a +:+ b) +:+ c = a +:+ b +:+ c.
Proof.
  induction a as [|x a IH]; [done|].
  change (String x ((a +:+ b) +:+ c) = String x (a +:+ b +:+ c)).
  by rewrite IH.
Qed.

Lemma str_split_nonempty (sep : Ascii.ascii) (s : string) : str_split sep s ≠ [].
Proof.
  destruct s as [|c s]; simpl; [done|].
  case_decide; [done|]. by destruct (str_split sep s).
Qed.

Lemma str_split_free (sep : Ascii.ascii) (seg : string) :
  occurs sep seg = false → str_split sep seg = [seg].
Proof.
  induction seg as [|c seg IH]; simpl; [done|].
  intros [Hc Hseg]%orb_false_iff. apply bool_decide_eq_false in Hc.
  rewrite decide_False by done. by rewrite IH.
Qed.

Lemma str_split_app (sep : Ascii.ascii) (seg rest : string) :
  occurs sep seg = false →
  str_split sep (seg +:+ String sep rest) = seg :: str_split sep rest.
Proof.
  induction seg as [|c seg IH]; simpl.
  - intros _. by rewrite decide_True.
  - intros [Hc Hseg]%orb_false_iff. apply bool_decide_eq_false in Hc.
    rewrite decide_False by done. by rewrite IH.
Qed.

Lemma str_split_join (sep : Ascii.ascii) (segs : list string) :
  segs ≠ [] →
  Forall (λ seg, occurs sep seg = false) segs →
  str_split sep (str_join (String sep "") segs) = segs.
Proof.
  induction segs as [|seg segs IH]; [done|]. intros _ [Hseg Hsegs]%Forall_cons.
  destruct segs as [|seg' segs].
  - simpl. by apply str_split_free.
  - change (str_join (String sep "") (seg :: seg' :: segs))
      with (seg +:+ String sep (str_join (String sep "") (seg' :: segs))).
    rewrite str_split_app by done. by rewrite IH.
Qed.

Lemma str_join_split (sep : Ascii.ascii) (s : string) :
  str_join (String sep "") (str_split sep s) = s.
Proof.
  induction s as [|c s IH]; simpl; [done|].
  pose proof (str_split_nonempty sep s) as Hne.
  case_decide as Hc.
  - subst c. destruct (str_split sep s) as [|seg segs] eqn:Hsplit; [done|].
    simpl in *. by rewrite IH.
  - destruct (str_split sep s) as [|seg segs] eqn:Hsplit; [done|].
    revert IH. simpl. destruct segs; simpl; by intros <-.
Qed.

Lemma str_split_segments (sep : Ascii.ascii) (s : string) :
  Forall (λ seg, occurs sep seg = false) (str_split sep s).
Proof.
  induction s as [|c s IH]; simpl.
  - by repeat constructor.
  - case_decide as Hc; [by constructor|].
    destruct (str_split sep s) as [|seg segs]; simpl.
    + repeat constructor. simpl. by rewrite bool_decide_eq_false_2.
    + apply Forall_cons in IH as [Hseg Hsegs]. constructor; [|done].
      simpl. by rewrite bool_decide_eq_false_2.
Qed.

Lemma str_join_app (sep : string) (l1 l2 : list string) :
  l1 ≠ [] → l2 ≠ [] →
  str_join sep (l1 ++ l2) = str_join sep l1 +:+ sep +:+ str_join sep l2.
Proof.
  intros Hl1 Hl2. induction l1 as [|x l1 IH]; [done|].
  destruct l1 as [|y l1].
  - simpl. by destruct l2.
  - change (str_join sep ((x :: y :: l1) ++ l2))
      with (x +:+ sep +:+ str_join sep ((y :: l1) ++ l2)).
    rewrite IH by done.
    change (str_join sep (x :: y :: l1)) with (x +:+ sep +:+ str_join sep (y :: l1)).
    by rewrite !string_app_assoc.
Qed.

Lemma list_index_None (x : string) (l : list string) :
  list_index x l = None ↔ x ∉ l.
Proof.
  induction l as [|y l IH]; simpl.
  - split; [intros _; apply not_elem_of_nil|done].
  - rewrite not_elem_of_cons. case_decide as Hy.
    + split; [done|]. by intros [? _].
    + destruct (list_index x l); simpl.
      * split; [done|]. intros [_ Hl]. by apply IH in Hl.
      * split; [|done]. intros _. split; [done|]. by apply IH.
Qed.

Lemma list_index_first (x : string) (pre tail : list string) :
  x ∉ pre → list_index x (pre ++ x :: tail) = Some (length pre).
Proof.
  induction pre as [|y pre IH]; simpl.
  - intros _. by rewrite decide_True.
  - intros [Hy Hpre]%not_elem_of_cons. rewrite decide_False by done.
    by rewrite IH.
Qed.

Lemma list_index_Some (x : string) (l : list string) (idx : nat) :
  list_index x l = Some idx →
  ∃ pre tail, l = pre ++ x :: tail ∧ (x ∉ pre) ∧ idx = length pre.
Proof.
  revert idx. induction l as [|y l IH]; intros idx; simpl; [done|].
  case_decide as Hy.
  - intros [= <-]. exists [], l. subst. split_and!; [done| |done].
    apply not_elem_of_nil.
  - destruct (list_index x l) as [i|]; [|done]. simpl. intros [= <-].
    destruct (IH i eq_refl) as (pre & tail & -> & Hpre & ->).
    exists (y :: pre), tail. split_and!; [done| |done].
    apply not_elem_of_cons. done.
Qed.

Lemma to_main_segments (pre tail : list string) :
  Forall (λ seg, occurs "/"%char seg = false) (pre ++ "edit" :: tail) →
  "edit" ∉ pre →
  to_main (str_join "/" (pre ++ "edit" :: tail))
  = Return (str_join "/" (pre ++ ["edit"; "main"] ++ after_branch tail)).
Proof.
  intros Hfree Hpre. unfold to_main.
  rewrite str_split_join; [|by destruct pre|done].
  rewrite list_index_first by done. f_equal.
  replace (take (length pre + 1) (pre ++ "edit" :: tail)) with (pre ++ ["edit"]).
  2:{ by rewrite take_app_add'. }
  replace (drop (length pre + 2) (pre ++ "edit" :: tail)) with (drop 1 tail).
  2:{ by rewrite drop_app_add'. }
  replace (pre ++ ["edit"; "main"] ++ after_branch tail)
    with ((pre ++ ["edit"]) ++ "main" :: after_branch tail)
    by (by rewrite <- app_assoc).
  rewrite (str_join_app "/" (pre ++ ["edit"])); [|by destruct pre|done].
  f_equal. unfold after_branch. by destruct (drop 1 tail) as [|? [|? ?]].
Qed.

(** X12.  [to_main] has no link to return exactly when no segment of the path is
    "edit": for the path made of the segments [segs], it raises the
    [ValueError] of [index] if "edit" is not among them, and returns a link
    otherwise. *)
Theorem to_main_needs_edit (segs : list string) :
  path_segments segs →
  (to_main (str_join "/" segs) = Raise (ValueError "'edit' is not in list")
   ↔ "edit" ∉ segs)
  ∧ ((∃ link, to_main (str_join "/" segs) = Return link) ↔ "edit" ∈ segs).
Proof.
  intros [Hne Hfree]. unfold to_main. rewrite str_split_join by done.
  destruct (list_index "edit" segs) as [idx|] eqn:Hindex.
  - apply list_index_Some in Hindex as (pre & tail & -> & _ & _).
    assert ("edit" ∈ pre ++ "edit" :: tail) as Hin
      by (apply elem_of_app; right; left).
    split; split; try done; eauto.
  - apply list_index_None in Hindex. split; split; try done.
    by intros [? ?].
Qed.

(** X13.  [to_main] points the link to the branch main.  For a path whose first
    segment "edit" comes after [pre] and is followed by [tail], the link
    keeps everything up to "edit", puts "main" in the place of the segment
    after it (the branch), and keeps the rest of the path; when nothing
    follows the branch, or the branch itself is missing, the link ends in
    "main/". *)
Theorem to_main_replaces_branch (pre tail : list string) :
  path_segments (pre ++ "edit" :: tail) →
  "edit" ∉ pre →
  to_main (str_join "/" (pre ++ "edit" :: tail))
  = Return (str_join "/" (pre ++ ["edit"; "main"] ++ after_branch tail))
  ∧ (∀ branch rest,
       tail = branch :: rest → rest ≠ [] →
       to_main (str_join "/" (pre ++ "edit" :: branch :: rest))
       = Return (str_join "/" (pre ++ "edit" :: "main" :: rest)))
  ∧ (length tail ≤ 1 →
     to_main (str_join "/" (pre ++ "edit" :: tail))
     = Return (str_join "/" (pre ++ ["edit"]) +:+ "/main/")).
Proof.
  intros [_ Hfree] Hpre. split_and!.
  - by apply to_main_segments.
  - intros branch rest -> Hrest. rewrite to_main_segments by done.
    unfold after_branch. simpl. rewrite drop_0. by destruct rest.
  - intros Htail. rewrite to_main_segments by done. f_equal.
    assert (after_branch tail = [""]) as ->.
    { unfold after_branch. destruct tail as [|? [|? ?]]; simpl in *; [done..|lia]. }
    replace (pre ++ ["edit"; "main"] ++ [""])
      with ((pre ++ ["edit"]) ++ ["main"; ""]) by (by rewrite <- app_assoc).
    rewrite str_join_app; [done|by destruct pre|done].
Qed.

(** X14.  [to_main] is idempotent: a link that it returns is a link that it
    returns unchanged. *)
Theorem to_main_idempotent (link link' : string) :
  to_main link = Return link' → to_main link' = Return link'.
Proof.
  intros Hlink.
  assert (∃ pre tail,
    Forall (λ seg, occurs "/"%char seg = false) (pre ++ "edit" :: tail)
    ∧ ("edit" ∉ pre)
    ∧ link = str_join "/" (pre ++ "edit" :: tail)) as (pre & tail & Hfree & Hpre & ->).
  { revert Hlink. unfold to_main.
    destruct (list_index "edit" (str_split "/"%char link)) as [idx|] eqn:Hindex; [|done].
    intros _. apply list_index_Some in Hindex as (pre & tail & Hsplit & Hpre & _).
    exists pre, tail. split_and!; [|done|].
    - rewrite <- Hsplit. apply str_split_segments.
    - rewrite <- Hsplit. symmetry. apply (str_join_split "/"%char). }
  rewrite to_main_segments in Hlink by done. injection Hlink as <-.
  assert (after_branch ("main" :: after_branch tail) = after_branch tail) as Hafter.
  { unfold after_branch. simpl. rewrite drop_0.
    by destruct (drop 1 tail) as [|? ?]. }
  change (pre ++ ["edit"; "main"] ++ after_branch tail)
    with (pre ++ "edit" :: "main" :: after_branch tail).
  rewrite to_main_segments; [by rewrite Hafter|..|done].
  apply Forall_app. apply Forall_app in Hfree as [Hfree1 Hfree2].
  apply Forall_cons in Hfree2 as [Hedit Htail].
  split; [done|]. repeat (constructor; [done|]).
  unfold after_branch. destruct (drop 1 tail) as [|seg rest] eqn:Hdrop.
  - by repeat constructor.
  - rewrite <- Hdrop. by apply Forall_drop.
Qed.

(** ** The theorems at work, and where the specification goes too far *)

Section Scenarios.
Import Scenario.

(** Scenario A: X answers, the one turn is over, the chat stops on the
    limit. *)
Lemma max_turns_reached_witness :
  ∃ s',
    handle_agent_response (says "X" "hello") (started one_turn_team) = (Return tt, s')
    ∧ _output_message_queue s'
      = [QTermination
           {| message := {| content := "Maximum number of turns 1 reached.";
                            source := "manager" |};
              error := None |}]
    ∧ _current_turn s' = 0%Z.
Proof.
  destruct (max_turns_reached (says "X" "hello") (started one_turn_team) 1%Z)
    as (s' & Hrun & Hqueue & _ & Hturn & _).
  - reflexivity.
  - intros c [= <-]. reflexivity.
  - reflexivity.
  - vm_compute. discriminate.
  - exists s'. split; [exact Hrun|]. split; [exact Hqueue|exact Hturn].
Defined.


Lemma unsolicited_response_witness :
  ∃ s',
    handle_agent_response (says "Y" "me too") (started one_turn_team)
    = (Raise (ValueError "list.remove(x): x not in list"), s')
    ∧ _message_thread s' = [BaseChatMessage "Y" "me too"]
    ∧ queued_terminations s' = 1.
Proof.
  destruct (unsolicited_response (says "Y" "me too") (started one_turn_team))
    as (s' & Hrun & Hthread & _ & Hterm & _).
  - vm_compute. intros Hin. apply list_elem_of_singleton in Hin. discriminate.
  - exists s'. split; [exact Hrun|]. split; [exact Hthread|exact Hterm].
Defined.


Lemma stop_resets_condition_witness :
  ∃ s' t,
    _apply_termination_condition [BaseChatMessage "X" "DONE"] true
      (started one_turn_team) = (Return true, s')
    ∧ (tc_terminated <$> _termination_condition s') = Some false
    ∧ _output_message_queue s' = [QTermination t].
Proof.
  destruct (stop_resets_condition (started one_turn_team) false) as (Hstop & _).
  - intros c'. reflexivity.
  - reflexivity.
  - assert (_apply_termination_condition [BaseChatMessage "X" "DONE"] true
              (started one_turn_team)
            = (Return true,
               (_apply_termination_condition [BaseChatMessage "X" "DONE"] true
                  (started one_turn_team)).2)) as Hrun
      by (vm_compute; reflexivity).
    destruct (Hstop _ _ _ Hrun) as (t & c' & _ & Hqueue & _ & Hc & Hflag & _).
    eexists _, t. split; [exact Hrun|].
    split; [|exact Hqueue].
    rewrite Hc. simpl. f_equal. exact Hflag.
Defined.


(** Scenario D: Y answers before X. *)
Lemma two_active_speakers_respond_witness :
  ∃ s1,
    handle_agent_response (says "Y" "second") (started pair_team) = (Return tt, s1)
    ∧ _active_speakers s1 = ["X"]
    ∧ ∀ r s2,
        handle_agent_response (says "X" "first") s1 = (r, s2) →
        _message_thread s2
        = [BaseChatMessage "Y" "second"; BaseChatMessage "X" "first"].
Proof.
  destruct (two_active_speakers_respond (says "Y" "second") (says "X" "first")
              (started pair_team))
    as (s1 & Hrun & _ & Hactive & _ & _ & _ & Hsecond).
  - discriminate.
  - apply perm_swap.
  - exists s1. split; [exact Hrun|]. split; [exact Hactive|].
    intros r s2 Hrun2. destruct (Hsecond r s2 Hrun2) as (Hthread & _).
    exact Hthread.
Defined.

Lemma turn_counter_steps_witness :
  let s := run [GroupChatStart (Some [hi]) true] one_turn_team in
  let s' := (on_message (GroupChatResponse (says "X" "hello")) s).2 in
  queued_terminations s' = S (queued_terminations s)
  ∧ (0 ≤ _current_turn s')%Z.
Proof.
  intros s s'.
  destruct (turn_counter_steps "manager" "group" "output" ["tx"; "ty"] ["X"; "Y"]
              ["first"; "second"] [] (Some false) (Some 1%Z) false
              (always (OneSpeaker "X")) one_turn_team
              [GroupChatStart (Some [hi]) true]
              (GroupChatResponse (says "X" "hello")) eq_refl)
    as (_ & Hlimit & Hpos & _).
  split; [|exact Hpos].
  apply (Hlimit (says "X" "hello") 1%Z); [reflexivity..|].
  vm_compute. discriminate.
Defined.

(** *** Where the claims fail *)



(** C7 fails when the completed round ends the chat: X and Y are active, both
    respond, the turn limit of 1 is reached, and the selector is not called
    again. *)
Lemma completed_round_without_transition :
  let s := started pair_team in
  let s2 :=
    run [GroupChatResponse (says "Y" "second");
         GroupChatResponse (says "X" "first")] s in
  _active_speakers s = ["X"; "Y"]
  ∧ _message_thread s2
    = [BaseChatMessage "Y" "second"; BaseChatMessage "X" "first"]
  ∧ selector_calls s2 = selector_calls s
  ∧ queued_terminations s2 = 1.
Proof. vm_compute. done. Qed.

(** C8 fails for the terminations with an error.  A participant reports an
    error to a team whose condition is terminated: one termination event is
    queued, the condition is not reset and its flag is still set.  And when
    the selector names an unknown speaker after a response, the termination
    event is queued without any reset of the condition. *)
Lemma error_termination_without_reset :
  let err := from_exception (OtherError "RuntimeError" "model failed") in
  let s1 := (handle_group_chat_error err terminated_team).2 in
  let s2 :=
    (handle_agent_response (says "X" "hello")
       (set_active_speakers ["X"] (unknown_team (Some false)))).2 in
  queued_terminations s1 = 1
  ∧ condition_resets s1 = 0
  ∧ (tc_terminated <$> _termination_condition s1) = Some true
  ∧ queued_terminations s2 = 1
  ∧ condition_resets s2 = 0.
Proof. vm_compute. done. Qed.

(** *** The further properties at work *)

Lemma response_while_others_active_witness :
  ∃ s',
    handle_agent_response (says "X" "first") (started pair_team) = (Return tt, s')
    ∧ _active_speakers s' = ["Y"]
    ∧ effects s' = effects (started pair_team).
Proof.
  destruct (response_while_others_active (says "X" "first") (started pair_team) ["Y"])
    as (s' & Hrun & _ & Hactive & Heffects & _).
  - reflexivity.
  - discriminate.
  - exists s'. split; [exact Hrun|]. split; [exact Hactive|exact Heffects].
Defined.

Lemma responses_in_any_order_witness :
  _active_speakers
    (run [GroupChatResponse (says "Y" "second")] (started pair_team)) = ["X"].
Proof.
  destruct (responses_in_any_order [says "Y" "second"] "X" (started pair_team))
    as (_ & Hactive & _).
  - apply perm_swap.
  - exact Hactive.
Defined.

Lemma transition_requests_selection_witness :
  ∃ s',
    _transition_to_next_speakers pair_team = (Return tt, s')
    ∧ _active_speakers s' = ["X"; "Y"].
Proof.
  destruct (transition_requests_selection pair_team (ManySpeakers ["X"; "Y"]))
    as (s' & topics & Hrun & _ & _ & Hactive & _).
  - reflexivity.
  - repeat constructor; eexists; reflexivity.
  - exists s'. split; [exact Hrun|exact Hactive].
Defined.

Lemma rejected_start_has_no_effect_witness :
  ∃ s',
    handle_start (Some [hi]) true rejecting_team
    = (Raise (ValueError "The task is empty."), s')
    ∧ _message_thread s' = []
    ∧ _output_message_queue s' = [].
Proof.
  destruct (rejected_start_has_no_effect (Some [hi]) true rejecting_team
              (ValueError "The task is empty."))
    as (s' & Hrun & _ & Hthread & Hqueue & _).
  - intros c [=].
  - reflexivity.
  - exists s'. split; [exact Hrun|]. split; [exact Hthread|exact Hqueue].
Defined.

Lemma active_speakers_stay_registered_witness :
  active_registered (on_message (GroupChatStart None true) pair_team).2.
Proof.
  apply (active_speakers_stay_registered (GroupChatStart None true) pair_team).
  - discriminate.
  - constructor.
Defined.

Lemma handlers_only_append_witness :
  _message_thread
    (on_message (GroupChatResponse (says "X" "hello")) (started one_turn_team)).2
  = _message_thread (started one_turn_team) ++ [BaseChatMessage "X" "hello"].
Proof.
  destruct (handlers_only_append (GroupChatResponse (says "X" "hello"))
              (started one_turn_team)) as (_ & _ & _ & Hthread).
  - discriminate.
  - exact (Hthread (says "X" "hello") eq_refl).
Defined.

Lemma start_without_messages_witness :
  let outcome := handle_start None true one_turn_team in
  condition_deltas outcome.2 = []
  ∧ queued_terminations outcome.2 = 0
  ∧ selector_calls outcome.2 = 1.
Proof.
  intros outcome.
  assert (handle_start None true one_turn_team = (outcome.1, outcome.2)) as Hrun
    by (vm_compute; reflexivity).
  destruct (start_without_messages true one_turn_team outcome.1 outcome.2)
    as (_ & Hdeltas & _ & _ & Hterm & Hcalls & _).
  - intros c [= <-]. reflexivity.
  - reflexivity.
  - exact Hrun.
  - split; [exact Hdeltas|]. split; [exact Hterm|exact Hcalls].
Defined.

Lemma start_relays_task_witness :
  let outcome := handle_start (Some [hi]) true one_turn_team in
  _message_thread outcome.2 = [hi]
  ∧ [QMessage hi] `prefix_of` _output_message_queue outcome.2.
Proof.
  intros outcome.
  assert (handle_start (Some [hi]) true one_turn_team = (outcome.1, outcome.2))
    as Hrun by (vm_compute; reflexivity).
  destruct (start_relays_task [hi] true one_turn_team outcome.1 outcome.2)
    as (Hthread & Hqueue).
  - intros c [= <-]. reflexivity.
  - reflexivity.
  - exact Hrun.
  - split; [exact Hthread|exact Hqueue].
Defined.

Lemma start_reaches_selection_witness :
  let outcome := handle_start (Some [hi]) true one_turn_team in
  selector_calls outcome.2 = 1
  ∧ queued_terminations outcome.2 = 0.
Proof.
  intros outcome.
  assert (handle_start (Some [hi]) true one_turn_team = (outcome.1, outcome.2))
    as Hrun by (vm_compute; reflexivity).
  destruct (start_reaches_selection [hi] true one_turn_team outcome.1 outcome.2)
    as (Hcalls & Hterm & _).
  - split; [done|]. intros n [= <-]. done.
  - intros c [= <-]. split; reflexivity.
  - reflexivity.
  - exact Hrun.
  - split; [exact Hcalls|exact Hterm].
Defined.

Lemma init_registers_participants_witness :
  _participant_name_to_topic_type one_turn_team !! "Y" = Some "ty"
  ∧ _active_speakers one_turn_team = [].
Proof.
  destruct (init_registers_participants "manager" "group" "output" ["tx"; "ty"]
              ["X"; "Y"] ["first"; "second"] [] (Some false) (Some 1%Z) false
              (always (OneSpeaker "X")) one_turn_team eq_refl)
    as (_ & _ & Hlast & _ & _ & Hactive & _).
  split; [|exact Hactive].
  apply (Hlast ["X"] "Y" [] ["tx"] "ty" []); [reflexivity..|].
  apply not_elem_of_nil.
Defined.

Lemma to_main_needs_edit_witness :
  to_main "https://github.com/microsoft/autogen/blob/main/README.md"
  = Raise (ValueError "'edit' is not in list").
Proof.
  destruct (to_main_needs_edit
              ["https:"; ""; "github.com"; "microsoft"; "autogen"; "blob"; "main";
               "README.md"]) as [[_ Hraise] _].
  - split; [done|]. repeat constructor.
  - apply Hraise. vm_compute. intros Hin.
    repeat (apply elem_of_cons in Hin as [Hin|Hin]; [discriminate|]).
    by apply elem_of_nil in Hin.
Defined.

Lemma to_main_replaces_branch_witness :
  to_main "https://github.com/microsoft/autogen/edit/v0.4/python/docs/src/index.md"
  = Return "https://github.com/microsoft/autogen/edit/main/python/docs/src/index.md".
Proof.
  destruct (to_main_replaces_branch
              ["https:"; ""; "github.com"; "microsoft"; "autogen"]
              ["v0.4"; "python"; "docs"; "src"; "index.md"]) as (_ & Hbranch & _).
  - split; [done|]. repeat constructor.
  - intros Hin.
    repeat (apply elem_of_cons in Hin as [Hin|Hin]; [discriminate|]).
    by apply elem_of_nil in Hin.
  - apply (Hbranch "v0.4" ["python"; "docs"; "src"; "index.md"]); done.
Defined.

Lemma to_main_idempotent_witness :
  to_main "https://github.com/microsoft/autogen/edit/main/python/docs/src/index.md"
  = Return "https://github.com/microsoft/autogen/edit/main/python/docs/src/index.md".
Proof.
  apply (to_main_idempotent
           "https://github.com/microsoft/autogen/edit/v0.4/python/docs/src/index.md").
  vm_compute. reflexivity.
Defined.

Lemma condition_stop_precedes_limit_witness :
  ∃ s',
    _apply_termination_condition [BaseChatMessage "X" "DONE"] true
      (started one_turn_team) = (Return true, s')
    ∧ _output_message_queue s'
      = [QTermination
           {| message := {| content := "Text 'DONE' mentioned";
                            source := "TextMentionTermination" |};
              error := None |}].
Proof.
  destruct (condition_stop_precedes_limit [BaseChatMessage "X" "DONE"] true
              (started one_turn_team) false true
              {| content := "Text 'DONE' mentioned";
                 source := "TextMentionTermination" |})
    as (s' & Hrun & Hqueue & _).
  - reflexivity.
  - reflexivity.
  - exists s'. split; [exact Hrun|exact Hqueue].
Defined.

End Scenarios.
